(** * golang-mini-tco: tail-call elimination on a Go syntax tree

    A shallow embedding of [main.go]: the detector
    [findTailRecursionReturn], the parameter stager [makeAssignStmts] and
    the per-declaration loop of [main], over the fragment of [go/ast]
    that the program inspects, followed by a small evaluator for the
    object programs and the properties of the rewrite. *)

From Stdlib Require Import Ascii String ZArith List Bool Arith Lia.
Import ListNotations.
Open Scope string_scope.
Open Scope list_scope.

(** ** Results of code that may fault

    A Go run-time fault (index out of range, nil dereference) aborts the
    whole run; it is modelled by [Panic]. *)

Inductive outcome (A : Type) : Type :=
| Ok (a : A)
| Panic (msg : string).
Arguments Ok {A} a.
Arguments Panic {A} msg.

Definition bind {A B : Type} (m : outcome A) (k : A -> outcome B) : outcome B :=
  match m with
  | Ok a => k a
  | Panic msg => Panic msg
  end.

Notation "x <- m ;; k" := (bind m (fun x => k))
  (at level 61, m at next level, right associativity).

(** ** go/token *)

Module token.
Inductive Token : Set :=
| EQL | NEQ | LSS | LEQ | GTR | GEQ
| ADD | SUB | MUL | QUO | REM
| DEFINE | ASSIGN.

Definition eqb (a b : Token) : bool :=
  match a, b with
  | EQL, EQL | NEQ, NEQ | LSS, LSS | LEQ, LEQ | GTR, GTR | GEQ, GEQ
  | ADD, ADD | SUB, SUB | MUL, MUL | QUO, QUO | REM, REM
  | DEFINE, DEFINE | ASSIGN, ASSIGN => true
  | _, _ => false
  end.
End token.

(** ** go/ast, the fragment the program looks at

    Expression and statement kinds the program never interprets are the
    nodes [OtherExpr] and [OtherStmt]; they carry the source text of the
    node and nothing else.  [NilReturnStmt] is a nil
    [*ast.ReturnStmt] stored in an [ast.Stmt] interface value: the parser
    never produces one, but [main] can (line 184 discards the [ok] of the
    type assertion and line 195 stores the pointer). *)

Scheme All for list.
Scheme All for option.

Module ast.
Inductive Expr : Type :=
| Ident (Name : string)
| BasicLit (Value : Z)
| BinaryExpr (X : Expr) (Op : token.Token) (Y : Expr)
| CallExpr (Fun : Expr) (Args : list Expr)
| SelectorExpr (X : Expr) (Sel : string)
| OtherExpr (text : string).

Inductive Stmt : Type :=
| BlockStmt (List : list Stmt)
| IfStmt (Init : option Stmt) (Cond : Expr) (Body : list Stmt) (Else : option Stmt)
| ForStmt (Init : option Stmt) (Cond : option Expr) (Post : option Stmt) (Body : list Stmt)
| ReturnStmt (Results : list Expr)
| AssignStmt (Lhs : list Expr) (Tok : token.Token) (Rhs : list Expr)
| ExprStmt (X : Expr)
| OtherStmt (text : string)
| NilReturnStmt.

(** A parameter field: [a, b int] is one field with two names, [int]
    alone is one field with none. *)
Record Field : Type := mkField { Names : list string; Type_ : Expr }.

(** [fn.Name.Name], [fn.Type.Params.List] and [fn.Body.List]; a
    declaration without a body has [Body = None]. *)
Record FuncDecl : Type := mkFuncDecl {
  Name : string;
  Params : list Field;
  Body : option (list Stmt)
}.

Inductive Decl : Type :=
| DeclFunc (fn : FuncDecl)
| GenDecl (text : string).

(** What [ast.Inspect] hands to its callback. *)
Inductive Node : Type :=
| NodeStmt (s : Stmt)
| NodeExpr (e : Expr)
| NodeNil.

(** [ast.Inspect node f]: call [f node]; when it answers [true], inspect
    the children in source order and then call [f nil].  An answer of
    [false] skips the children of that node only: the walk goes on with
    its siblings.  The variables the closure captures are the state
    [S].

    [ast.Inspect] also walks below the nodes that are [OtherExpr] and
    [OtherStmt] here (range loops, switches, labeled statements, function
    literals, ...); the walk below stops at them.  For the closure of
    this program, which reacts to Return statements only, that makes a
    difference only when a Return lies below such a node, and then the
    text of the node holds the word [return]. *)
Section Inspect.
Context {S : Type}.
Variable f : Node -> S -> bool * S.

Fixpoint InspectExpr (e : Expr) (st : S) {struct e} : S :=
  let (descend, st1) := f (NodeExpr e) st in
  if descend then
    let st2 :=
      match e with
      | BinaryExpr X _ Y => InspectExpr Y (InspectExpr X st1)
      | CallExpr Fun Args =>
          fold_left (fun s a => InspectExpr a s) Args (InspectExpr Fun st1)
      | SelectorExpr X Sel =>
          let st' := InspectExpr X st1 in
          let (d, st'') := f (NodeExpr (Ident Sel)) st' in
          if d then snd (f NodeNil st'') else st''
      | Ident _ | BasicLit _ | OtherExpr _ => st1
      end in
    snd (f NodeNil st2)
  else st1.

Definition InspectExprs (l : list Expr) (st : S) : S :=
  fold_left (fun s a => InspectExpr a s) l st.

Definition InspectOptExpr (o : option Expr) (st : S) : S :=
  match o with
  | Some e => InspectExpr e st
  | None => st
  end.

Fixpoint InspectStmt (s : Stmt) (st : S) {struct s} : S :=
  let (descend, st1) := f (NodeStmt s) st in
  if descend then
    let walkList (l : list Stmt) (st : S) : S :=
      fold_left (fun st x => InspectStmt x st) l st in
    let walkBlock (l : list Stmt) (st : S) : S :=
      let (d, st') := f (NodeStmt (BlockStmt l)) st in
      if d then snd (f NodeNil (walkList l st')) else st' in
    let walkOpt (o : option Stmt) (st : S) : S :=
      match o with
      | Some x => InspectStmt x st
      | None => st
      end in
    let st2 :=
      match s with
      | BlockStmt List => walkList List st1
      | IfStmt Init Cond Body Else =>
          walkOpt Else (walkBlock Body (InspectExpr Cond (walkOpt Init st1)))
      | ForStmt Init Cond Post Body =>
          walkBlock Body (walkOpt Post (InspectOptExpr Cond (walkOpt Init st1)))
      | ReturnStmt Results => InspectExprs Results st1
      | AssignStmt Lhs _ Rhs => InspectExprs Rhs (InspectExprs Lhs st1)
      | ExprStmt X => InspectExpr X st1
      | OtherStmt _ | NilReturnStmt => st1
      end in
    snd (f NodeNil st2)
  else st1.
End Inspect.
End ast.
Import ast.

(** ** findTailRecursionReturn (main.go, lines 12-56) *)

(** The two variables the closure assigns; a nil dereference inside the
    closure is remembered in the outcome that wraps them. *)
Record found : Type := mkFound {
  tailReturn : option Stmt;
  call : option Expr
}.

Definition notFound : found := {| tailReturn := None; call := None |}.

(** The closure passed to [ast.Inspect] (lines 18-52). *)
Definition visit (fnName : string) (n : Node) (st : outcome found)
  : bool * outcome found :=
  match st with
  | Panic msg => (false, Panic msg)
  | Ok cur =>
      match n with
      | NodeStmt NilReturnStmt => (false, Panic "nil pointer dereference")
      | NodeStmt (ReturnStmt Results) =>
          match Results with
          | [r] =>
              match r with
              | CallExpr Fun Args =>
                  match Fun with
                  | Ident funName =>
                      if String.eqb funName fnName
                      then (false, Ok {| tailReturn := Some (ReturnStmt Results);
                                         call := Some r |})
                      else (true, Ok cur)
                  | _ => (true, Ok cur)
                  end
              | _ => (true, Ok cur)
              end
          | _ => (true, Ok cur)
          end
      | _ => (true, Ok cur)
      end
  end.

Definition findTailRecursionReturn (fnName : string) (body : list Stmt)
  : outcome found :=
  InspectStmt (visit fnName) (BlockStmt body) (Ok notFound).

(** ** makeAssignStmts (main.go, lines 59-98) *)

(** First loop (lines 64-77): one declaring assignment per field that has
    a name; [args[i]] faults when [i] is out of range. *)
Fixpoint stageTmps (args : list Expr) (i : nat) (params : list Field)
    (stmts : list Stmt) (tmpNames : list Expr)
  : outcome (list Stmt * list Expr) :=
  match params with
  | [] => Ok (stmts, tmpNames)
  | param :: rest =>
      match Names param with
      | [] => stageTmps args (S i) rest stmts tmpNames
      | name0 :: _ =>
          let tmpName := Ident ("tmp" ++ name0)%string in
          match nth_error args i with
          | None => Panic "index out of range"
          | Some arg =>
              stageTmps args (S i) rest
                (stmts ++ [AssignStmt [tmpName] token.DEFINE [arg]])
                (tmpNames ++ [tmpName])
          end
      end
  end.

(** Second loop (lines 80-88): the two sides of the combined assignment;
    [tmpNames[i]] is indexed by the position of the field. *)
Fixpoint stageAll (tmpNames : list Expr) (i : nat) (params : list Field)
    (lhsIdents rhsIdents : list Expr)
  : outcome (list Expr * list Expr) :=
  match params with
  | [] => Ok (lhsIdents, rhsIdents)
  | param :: rest =>
      match Names param with
      | [] => stageAll tmpNames (S i) rest lhsIdents rhsIdents
      | name0 :: _ =>
          match nth_error tmpNames i with
          | None => Panic "index out of range"
          | Some tmpName =>
              stageAll tmpNames (S i) rest
                (lhsIdents ++ [Ident name0]) (rhsIdents ++ [tmpName])
          end
      end
  end.

Definition makeAssignStmts (params : list Field) (args : list Expr)
  : outcome (list Stmt) :=
  r1 <- stageTmps args 0 params [] [] ;;
  let (stmts, tmpNames) := r1 in
  r2 <- stageAll tmpNames 0 params [] [] ;;
  let (lhsIdents, rhsIdents) := r2 in
  let assignAll := AssignStmt lhsIdents token.ASSIGN rhsIdents in
  Ok (stmts ++ [assignAll]).

(** ** The loop of main (main.go, lines 107-197) *)

(** Lines 131-153: the loop condition derived from the guard. *)
Definition loopCond (baseIfCond : Expr) : Expr :=
  match baseIfCond with
  | BinaryExpr X Op Y =>
      match Op with
      | token.EQL => BinaryExpr X token.NEQ Y
      | token.NEQ => BinaryExpr X token.EQL Y
      | _ => baseIfCond
      end
  | _ => baseIfCond
  end.

(** Lines 167-177: a Return whose single result is a call of the
    function's own name; a nil [*ast.ReturnStmt] faults at
    [retStmt.Results]. *)
Definition isSelfCallReturn (fnName : string) (stmt : Stmt) : outcome bool :=
  match stmt with
  | NilReturnStmt => Panic "nil pointer dereference"
  | ReturnStmt [CallExpr (Ident funName) _] => Ok (String.eqb funName fnName)
  | _ => Ok false
  end.

(** Lines 159-179.  [stmt == baseIf] compares pointers; [baseIf] is
    [fn.Body.List[0]] and a parsed tree shares no node, so the test holds
    at index 0 and nowhere else. *)
Fixpoint nonRecursiveStmts (fnName : string) (i : nat) (l : list Stmt)
  : outcome (list Stmt) :=
  match l with
  | [] => Ok []
  | stmt :: rest =>
      if Nat.eqb i 0 then nonRecursiveStmts fnName (S i) rest
      else
        skip <- isSelfCallReturn fnName stmt ;;
        tl <- nonRecursiveStmts fnName (S i) rest ;;
        Ok (if skip then tl else stmt :: tl)
  end.

(** Lines 182-185: the statement placed after the loop; nil when the
    then-branch is empty or does not start with a Return. *)
Definition baseReturn (baseIfBody : list Stmt) : Stmt :=
  match baseIfBody with
  | ReturnStmt Results :: _ => ReturnStmt Results
  | _ => NilReturnStmt
  end.

(** One iteration of the loop over the declarations, for a function
    declaration with body [body]: [None] is a [continue] (nothing is
    assigned), [Some l] is the statement list assigned to
    [fn.Body.List]. *)
Definition rewriteBody (fn : FuncDecl) (body : list Stmt)
  : outcome (option (list Stmt)) :=
  r <- findTailRecursionReturn (Name fn) body ;;
  match tailReturn r, call r with
  | Some _, Some (CallExpr _ callArgs) =>
      match body with
      | IfStmt _ baseIfCond baseIfBody _ :: _ =>
          let cond := loopCond baseIfCond in
          assignStmts <- makeAssignStmts (Params fn) callArgs ;;
          rest <- nonRecursiveStmts (Name fn) 0 body ;;
          Ok (Some [ ForStmt None (Some cond) None (assignStmts ++ rest);
                     baseReturn baseIfBody ])
      | _ => Ok None
      end
  | _, _ => Ok None
  end.

Definition rewriteFunc (fn : FuncDecl) : outcome FuncDecl :=
  match Body fn with
  | None => Ok fn
  | Some body =>
      r <- rewriteBody fn body ;;
      match r with
      | None => Ok fn
      | Some l => Ok {| Name := Name fn; Params := Params fn; Body := Some l |}
      end
  end.

Definition rewriteDecl (decl : Decl) : outcome Decl :=
  match decl with
  | DeclFunc fn => fn' <- rewriteFunc fn ;; Ok (DeclFunc fn')
  | GenDecl _ => Ok decl
  end.

(** The whole loop, declaration after declaration; a fault in one
    iteration ends the run. *)
Fixpoint rewriteDecls (decls : list Decl) : outcome (list Decl) :=
  match decls with
  | [] => Ok []
  | decl :: rest =>
      d <- rewriteDecl decl ;;
      ds <- rewriteDecls rest ;;
      Ok (d :: ds)
  end.

(** ** An evaluator for the object programs

    The rewrite is meant to keep the meaning of a function, so the
    scenarios that compare a function with its rewritten form need the
    meaning of both.  The
    evaluator covers integer and boolean values, Go's block scoping
    ([:=] declares in the innermost block, [=] updates the innermost
    visible binding, a block's declarations end with it) and calls of the
    functions of the source unit.  Integers are mathematical integers.
    Every recursive call consumes fuel; [None] is a stuck program or an
    exhausted fuel. *)

Module Eval.

Inductive Value : Type :=
| VInt (z : Z)
| VBool (b : bool).

(** Innermost binding first. *)
Definition Env : Type := list (string * Value).

Inductive Flow : Type :=
| Next (env : Env)
| Ret (vs : list Value).

Notation "x <-? m ;; k" := (match m with Some x => k | None => None end)
  (at level 61, m at next level, right associativity).

Fixpoint lookup (x : string) (env : Env) : option Value :=
  match env with
  | [] => None
  | (y, v) :: env' => if String.eqb x y then Some v else lookup x env'
  end.

Fixpoint assign (x : string) (v : Value) (env : Env) : option Env :=
  match env with
  | [] => None
  | (y, w) :: env' =>
      if String.eqb x y then Some ((y, v) :: env')
      else env'' <-? assign x v env' ;; Some ((y, w) :: env'')
  end.

Definition declare (x : string) (v : Value) (env : Env) : Env := (x, v) :: env.

(** Leaving a block drops what it declared and keeps what it assigned. *)
Definition leaveBlock (outer inner : Env) : Env :=
  skipn (length inner - length outer) inner.

Definition leave (outer : Env) (r : Flow) : Flow :=
  match r with
  | Next inner => Next (leaveBlock outer inner)
  | Ret vs => Ret vs
  end.

Definition evalBinary (op : token.Token) (a b : Value) : option Value :=
  match op, a, b with
  | token.ADD, VInt x, VInt y => Some (VInt (x + y))
  | token.SUB, VInt x, VInt y => Some (VInt (x - y))
  | token.MUL, VInt x, VInt y => Some (VInt (x * y))
  | token.QUO, VInt x, VInt y => if Z.eqb y 0 then None else Some (VInt (Z.quot x y))
  | token.REM, VInt x, VInt y => if Z.eqb y 0 then None else Some (VInt (Z.rem x y))
  | token.EQL, VInt x, VInt y => Some (VBool (Z.eqb x y))
  | token.NEQ, VInt x, VInt y => Some (VBool (negb (Z.eqb x y)))
  | token.LSS, VInt x, VInt y => Some (VBool (Z.ltb x y))
  | token.LEQ, VInt x, VInt y => Some (VBool (Z.leb x y))
  | token.GTR, VInt x, VInt y => Some (VBool (Z.gtb x y))
  | token.GEQ, VInt x, VInt y => Some (VBool (Z.geb x y))
  | token.EQL, VBool x, VBool y => Some (VBool (Bool.eqb x y))
  | token.NEQ, VBool x, VBool y => Some (VBool (negb (Bool.eqb x y)))
  | _, _, _ => None
  end.

Fixpoint identNames (l : list Expr) : option (list string) :=
  match l with
  | [] => Some []
  | Ident x :: l' => xs <-? identNames l' ;; Some (x :: xs)
  | _ :: _ => None
  end.

Fixpoint declareAll (xs : list string) (vs : list Value) (env : Env) : option Env :=
  match xs, vs with
  | [], [] => Some env
  | x :: xs', v :: vs' => declareAll xs' vs' (declare x v env)
  | _, _ => None
  end.

Fixpoint assignAll (xs : list string) (vs : list Value) (env : Env) : option Env :=
  match xs, vs with
  | [], [] => Some env
  | x :: xs', v :: vs' => env' <-? assign x v env ;; assignAll xs' vs' env'
  | _, _ => None
  end.

(** The frame of a call: every name of every field takes one argument,
    a field without a name takes one argument and binds nothing. *)
Fixpoint bindParams (params : list Field) (vs : list Value) (env : Env)
  : option Env :=
  match params with
  | [] => match vs with [] => Some env | _ :: _ => None end
  | param :: rest =>
      match Names param with
      | [] => match vs with
              | _ :: vs' => bindParams rest vs' env
              | [] => None
              end
      | names =>
          if Nat.leb (length names) (length vs)
          then env' <-? declareAll names (firstn (length names) vs) env ;;
               bindParams rest (skipn (length names) vs) env'
          else None
      end
  end.

Fixpoint findFunc (f : string) (prog : list FuncDecl) : option FuncDecl :=
  match prog with
  | [] => None
  | fn :: rest => if String.eqb f (Name fn) then Some fn else findFunc f rest
  end.

Section Run.
(** The function declarations of the source unit. *)
Variable prog : list FuncDecl.

Fixpoint evalExpr (fuel : nat) (env : Env) (e : Expr) {struct fuel}
  : option Value :=
  match fuel with
  | O => None
  | S fuel =>
      match e with
      | Ident x => lookup x env
      | BasicLit z => Some (VInt z)
      | BinaryExpr X Op Y =>
          a <-? evalExpr fuel env X ;;
          b <-? evalExpr fuel env Y ;;
          evalBinary Op a b
      | CallExpr (Ident f) Args =>
          vs <-? evalExprs fuel env Args ;;
          fn <-? findFunc f prog ;;
          rs <-? callFunc fuel fn vs ;;
          match rs with
          | [v] => Some v
          | _ => None
          end
      | _ => None
      end
  end

with evalExprs (fuel : nat) (env : Env) (l : list Expr) {struct fuel}
  : option (list Value) :=
  match fuel with
  | O => None
  | S fuel =>
      match l with
      | [] => Some []
      | e :: l' =>
          v <-? evalExpr fuel env e ;;
          vs <-? evalExprs fuel env l' ;;
          Some (v :: vs)
      end
  end

with execStmt (fuel : nat) (env : Env) (s : Stmt) {struct fuel}
  : option Flow :=
  match fuel with
  | O => None
  | S fuel =>
      match s with
      | BlockStmt List =>
          r <-? execStmts fuel env List ;; Some (leave env r)
      | IfStmt Init Cond Body Else =>
          r0 <-? match Init with
                 | Some i => execStmt fuel env i
                 | None => Some (Next env)
                 end ;;
          match r0 with
          | Ret vs => Some (Ret vs)
          | Next env1 =>
              c <-? evalExpr fuel env1 Cond ;;
              match c with
              | VBool true =>
                  r <-? execStmts fuel env1 Body ;; Some (leave env r)
              | VBool false =>
                  match Else with
                  | Some e => r <-? execStmt fuel env1 e ;; Some (leave env r)
                  | None => Some (Next (leaveBlock env env1))
                  end
              | VInt _ => None
              end
          end
      | ForStmt (Some i) Cond Post Body =>
          r0 <-? execStmt fuel env i ;;
          match r0 with
          | Ret vs => Some (Ret vs)
          | Next env1 =>
              r <-? execStmt fuel env1 (ForStmt None Cond Post Body) ;;
              Some (leave env r)
          end
      | ForStmt None Cond Post Body =>
          c <-? match Cond with
                | Some e => evalExpr fuel env e
                | None => Some (VBool true)
                end ;;
          match c with
          | VBool false => Some (Next env)
          | VBool true =>
              r <-? execStmts fuel env Body ;;
              match leave env r with
              | Ret vs => Some (Ret vs)
              | Next env1 =>
                  r1 <-? match Post with
                         | Some p => execStmt fuel env1 p
                         | None => Some (Next env1)
                         end ;;
                  match r1 with
                  | Ret vs => Some (Ret vs)
                  | Next env2 => execStmt fuel env2 (ForStmt None Cond Post Body)
                  end
              end
          | VInt _ => None
          end
      | ReturnStmt Results =>
          vs <-? evalExprs fuel env Results ;; Some (Ret vs)
      | AssignStmt Lhs Tok Rhs =>
          vs <-? evalExprs fuel env Rhs ;;
          xs <-? identNames Lhs ;;
          match Tok with
          | token.DEFINE => env' <-? declareAll xs vs env ;; Some (Next env')
          | token.ASSIGN => env' <-? assignAll xs vs env ;; Some (Next env')
          | _ => None
          end
      | ExprStmt X => _ <-? evalExpr fuel env X ;; Some (Next env)
      | OtherStmt _ | NilReturnStmt => None
      end
  end

with execStmts (fuel : nat) (env : Env) (l : list Stmt) {struct fuel}
  : option Flow :=
  match fuel with
  | O => None
  | S fuel =>
      match l with
      | [] => Some (Next env)
      | s :: l' =>
          r <-? execStmt fuel env s ;;
          match r with
          | Ret vs => Some (Ret vs)
          | Next env' => execStmts fuel env' l'
          end
      end
  end

(** A call: bind the arguments in a new frame and run the body up to
    its Return. *)
with callFunc (fuel : nat) (fn : FuncDecl) (vs : list Value) {struct fuel}
  : option (list Value) :=
  match fuel with
  | O => None
  | S fuel =>
      body <-? Body fn ;;
      env <-? bindParams (Params fn) vs [] ;;
      r <-? execStmts fuel env body ;;
      match r with
      | Ret rs => Some rs
      | Next _ => None
      end
  end.
End Run.

End Eval.
Import Eval.

(** ** Vocabulary of the properties *)

(** A field takes part in the staging when it has a name; its temporary
    is derived from its first name. *)
Definition named (p : Field) : bool :=
  match Names p with
  | [] => false
  | _ :: _ => true
  end.

Definition firstNames (params : list Field) : list string :=
  flat_map (fun p => match Names p with [] => [] | n :: _ => [n] end) params.

Definition tmpName (n : string) : string := ("tmp" ++ n)%string.

(** The first name of a field that has one. *)
Definition firstName (p : Field) : string := hd EmptyString (Names p).


(** The declaring assignments as the first loop builds them, field [i]
    taking argument [i]. *)
Fixpoint tmpDecls (args : list Expr) (i : nat) (params : list Field) : list Stmt :=
  match params with
  | [] => []
  | p :: rest =>
      match Names p, nth_error args i with
      | n :: _, Some a =>
          AssignStmt [Ident (tmpName n)] token.DEFINE [a] :: tmpDecls args (S i) rest
      | _, _ => tmpDecls args (S i) rest
      end
  end.

(** The staging statements: one declaring assignment per named field,
    its temporary taking the call argument paired with it, then the
    single combined assignment of all temporaries to their parameters. *)
Definition staged (params : list Field) (args : list Expr) : list Stmt :=
  map (fun na => AssignStmt [Ident (tmpName (fst na))] token.DEFINE [snd na])
      (combine (firstNames params) args)
  ++ [AssignStmt (map Ident (firstNames params)) token.ASSIGN
                 (map (fun n => Ident (tmpName n)) (firstNames params))].

(** Every field with a name, counted from position [i], has an argument
    at its position. *)
Fixpoint argsCover (n i : nat) (params : list Field) : bool :=
  match params with
  | [] => true
  | p :: rest => (negb (named p) || Nat.ltb i n) && argsCover n (S i) rest
  end.

(** No field without a name comes before a field with one. *)
Fixpoint unnamedLast (params : list Field) : bool :=
  match params with
  | [] => true
  | p :: rest =>
      if named p then unnamedLast rest
      else forallb (fun q => negb (named q)) rest
  end.

(** A Return whose single result is a call of [fnName] by its name. *)
Definition selfCallReturn (fnName : string) (stmt : Stmt) : bool :=
  match stmt with
  | ReturnStmt [CallExpr (Ident funName) _] => String.eqb funName fnName
  | _ => false
  end.

(** The statements after the guard that are kept in the loop. *)
Definition remainder (fnName : string) (tl : list Stmt) : list Stmt :=
  filter (fun s => negb (selfCallReturn fnName s)) tl.

(** The self-call Returns under a statement, in the order [ast.Inspect]
    meets them; what lies below a node the program does not interpret is
    not listed. *)
Fixpoint selfCallReturns (fnName : string) (s : Stmt) {struct s} : list Stmt :=
  let ofOpt (o : option Stmt) : list Stmt :=
    match o with
    | Some x => selfCallReturns fnName x
    | None => []
    end in
  match s with
  | BlockStmt List => flat_map (selfCallReturns fnName) List
  | IfStmt Init _ Body Else =>
      ofOpt Init ++ flat_map (selfCallReturns fnName) Body ++ ofOpt Else
  | ForStmt Init _ Post Body =>
      ofOpt Init ++ ofOpt Post ++ flat_map (selfCallReturns fnName) Body
  | ReturnStmt _ => if selfCallReturn fnName s then [s] else []
  | AssignStmt _ _ _ | ExprStmt _ | OtherStmt _ | NilReturnStmt => []
  end.

(** No nil statement anywhere: what the parser delivers. *)
Fixpoint parsed (s : Stmt) {struct s} : bool :=
  let ofOpt (o : option Stmt) : bool :=
    match o with
    | Some x => parsed x
    | None => true
    end in
  match s with
  | BlockStmt List => forallb parsed List
  | IfStmt Init _ Body Else => ofOpt Init && forallb parsed Body && ofOpt Else
  | ForStmt Init _ Post Body => ofOpt Init && ofOpt Post && forallb parsed Body
  | NilReturnStmt => false
  | ReturnStmt _ | AssignStmt _ _ _ | ExprStmt _ | OtherStmt _ => true
  end.

(** The words of a source text: its maximal runs of letters, digits,
    underscores and characters beyond ASCII.  Every identifier and every
    keyword occurring in the text is one of them. *)
Definition identChar (c : ascii) : bool :=
  let n := nat_of_ascii c in
  (Nat.leb 48 n && Nat.leb n 57) || (Nat.leb 65 n && Nat.leb n 90)
  || (Nat.leb 97 n && Nat.leb n 122) || Nat.eqb n 95 || Nat.leb 128 n.

Fixpoint wordsFrom (cur text : string) {struct text} : list string :=
  match text with
  | EmptyString =>
      match cur with
      | EmptyString => []
      | String _ _ => [cur]
      end
  | String c rest =>
      if identChar c then wordsFrom (cur ++ String c EmptyString)%string rest
      else
        match cur with
        | EmptyString => wordsFrom EmptyString rest
        | String _ _ => cur :: wordsFrom EmptyString rest
        end
  end.

Definition words (text : string) : list string := wordsFrom EmptyString text.

(** The identifiers occurring in an expression or a statement; for a node
    the program does not interpret, the words of its text, among which
    its identifiers are. *)
Fixpoint identsExpr (e : Expr) {struct e} : list string :=
  match e with
  | Ident x => [x]
  | BasicLit _ => []
  | OtherExpr text => words text
  | BinaryExpr X _ Y => identsExpr X ++ identsExpr Y
  | CallExpr Fun Args => identsExpr Fun ++ flat_map identsExpr Args
  | SelectorExpr X Sel => identsExpr X ++ [Sel]
  end.

Fixpoint identsStmt (s : Stmt) {struct s} : list string :=
  let ofOpt (o : option Stmt) : list string :=
    match o with
    | Some x => identsStmt x
    | None => []
    end in
  match s with
  | BlockStmt List => flat_map identsStmt List
  | IfStmt Init Cond Body Else =>
      ofOpt Init ++ identsExpr Cond ++ flat_map identsStmt Body ++ ofOpt Else
  | ForStmt Init Cond Post Body =>
      ofOpt Init ++ match Cond with Some c => identsExpr c | None => [] end
      ++ ofOpt Post ++ flat_map identsStmt Body
  | ReturnStmt Results => flat_map identsExpr Results
  | AssignStmt Lhs _ Rhs => flat_map identsExpr Lhs ++ flat_map identsExpr Rhs
  | ExprStmt X => identsExpr X
  | OtherStmt text => words text
  | NilReturnStmt => []
  end.

(** The texts of the nodes the program does not interpret, under an
    expression or a statement. *)
Fixpoint opaqueExpr (e : Expr) {struct e} : list string :=
  match e with
  | Ident _ | BasicLit _ => []
  | BinaryExpr X _ Y => opaqueExpr X ++ opaqueExpr Y
  | CallExpr Fun Args => opaqueExpr Fun ++ flat_map opaqueExpr Args
  | SelectorExpr X _ => opaqueExpr X
  | OtherExpr text => [text]
  end.

Fixpoint opaqueStmt (s : Stmt) {struct s} : list string :=
  let ofOpt (o : option Stmt) : list string :=
    match o with
    | Some x => opaqueStmt x
    | None => []
    end in
  match s with
  | BlockStmt List => flat_map opaqueStmt List
  | IfStmt Init Cond Body Else =>
      ofOpt Init ++ opaqueExpr Cond ++ flat_map opaqueStmt Body ++ ofOpt Else
  | ForStmt Init Cond Post Body =>
      ofOpt Init ++ match Cond with Some c => opaqueExpr c | None => [] end
      ++ ofOpt Post ++ flat_map opaqueStmt Body
  | ReturnStmt Results => flat_map opaqueExpr Results
  | AssignStmt Lhs _ Rhs => flat_map opaqueExpr Lhs ++ flat_map opaqueExpr Rhs
  | ExprStmt X => opaqueExpr X
  | OtherStmt text => [text]
  | NilReturnStmt => []
  end.

(** A Return statement can lie below a node the program does not
    interpret only if the text of the node holds the keyword.  In a body
    without such a node the walk of [ast.Inspect] meets the same Return
    statements as [InspectStmt]. *)
Definition hidesReturn (text : string) : bool :=
  existsb (String.eqb "return") (words text).

Definition noHiddenReturn (body : list Stmt) : Prop :=
  forall text, In text (flat_map opaqueStmt body) -> hidesReturn text = false.

(** The identifiers of a function: its name, its parameter names, the
    identifiers of their types and of its body. *)
Definition identsFunc (fn : FuncDecl) : list string :=
  Name fn
  :: flat_map (fun p => Names p ++ identsExpr (Type_ p)) (Params fn)
  ++ match Body fn with
     | Some body => flat_map identsStmt body
     | None => []
     end.

(** The temporaries the staging of [fn] introduces. *)
Definition temporaries (fn : FuncDecl) : list string :=
  map tmpName (firstNames (Params fn)).

(** What the closure stores at a self-call Return, and what it holds
    after meeting the Returns [rets] one after the other. *)
Definition foundOf (ret : Stmt) : found :=
  {| tailReturn := Some ret;
     call := match ret with
             | ReturnStmt [c] => Some c
             | _ => None
             end |}.

Definition lastFound (cur : found) (rets : list Stmt) : found :=
  fold_left (fun _ ret => foundOf ret) rets cur.

(** Inspecting [s] with the closure leaves the last self-call Return
    under [s], or what was held before when there is none. *)
Definition reports (fnName : string) (s : Stmt) : Prop :=
  parsed s = true ->
  forall cur,
    InspectStmt (visit fnName) s (Ok cur) =
    Ok (lastFound cur (selfCallReturns fnName s)).

(** Inspecting [s] with the closure faults when a nil statement lies
    under [s]. *)
Definition faults (fnName : string) (s : Stmt) : Prop :=
  parsed s = false ->
  forall cur,
    InspectStmt (visit fnName) s (Ok cur) = Panic "nil pointer dereference".

(** The negation of a boolean value. *)
Definition negateValue (v : Value) : Value :=
  match v with
  | VBool b => VBool (negb b)
  | VInt z => VInt z
  end.

(** The bindings of the temporaries of [names] to the values [vs], the
    last declared first. *)
Definition tmpFrame (names : list string) (vs : list Value) : Env :=
  rev (combine (map tmpName names) vs).

(** The frame of a call of a function whose fields have one name each:
    the names bound to the arguments, the last parameter first. *)
Definition paramFrame (names : list string) (vs : list Value) : Env :=
  rev (combine names vs).

(** [fn] has a body and the loop of main assigns [l] to it. *)
Definition rewrittenTo (fn : FuncDecl) (l : list Stmt) : Prop :=
  exists body, Body fn = Some body /\ rewriteBody fn body = Ok (Some l).

(** The remainder in the words of the specification: the statements of
    the body other than its first one, the guard, and other than the
    Return that the detector reported. *)
Definition exceptGuardAndReported (body : list Stmt) (reported : Stmt)
    (rem : list Stmt) : Prop :=
  forall s, In s rem <-> (In s (tl body) /\ s <> reported).

(** No temporary of [fn] is an identifier of [fn]. *)
Definition freshTemporaries (fn : FuncDecl) : Prop :=
  forall t, In t (temporaries fn) -> ~ In t (identsFunc fn).

(** A computation that consumes fuel yields [a] when it does so from
    some amount of fuel on. *)
Definition eventually {A : Type} (run : nat -> option A) (a : A) : Prop :=
  exists fuel0, forall fuel, fuel0 <= fuel -> run fuel = Some a.

(** ** Scenario programs *)

Definition guard (cond : Expr) (thenBranch : list Stmt) : Stmt :=
  IfStmt None cond thenBranch None.

Definition isZero (x : string) : Expr :=
  BinaryExpr (Ident x) token.EQL (BasicLit 0).

Definition nonZero (x : string) : Expr :=
  BinaryExpr (Ident x) token.NEQ (BasicLit 0).

Definition returnCall (f : string) (args : list Expr) : Stmt :=
  ReturnStmt [CallExpr (Ident f) args].

Definition define (x : string) (e : Expr) : Stmt :=
  AssignStmt [Ident x] token.DEFINE [e].

Definition minus1 (x : string) : Expr :=
  BinaryExpr (Ident x) token.SUB (BasicLit 1).

(** [func Sum(n tn, acc tacc) { if n == 0 { return acc }; return Sum(n - 1, acc + n) }],
    one field per parameter. *)
Definition SumBody : list Stmt :=
  [ guard (isZero "n") [ReturnStmt [Ident "acc"]];
    returnCall "Sum" [minus1 "n"; BinaryExpr (Ident "acc") token.ADD (Ident "n")] ].

Definition Sum (tn tacc : Expr) : FuncDecl :=
  {| Name := "Sum";
     Params := [mkField ["n"] tn; mkField ["acc"] tacc];
     Body := Some SumBody |}.

(** [for n != 0 { tmpn := n - 1; tmpacc := acc + n; n, acc = tmpn, tmpacc }; return acc] *)
Definition SumStaging : list Stmt :=
  [ define "tmpn" (minus1 "n");
    define "tmpacc" (BinaryExpr (Ident "acc") token.ADD (Ident "n"));
    AssignStmt [Ident "n"; Ident "acc"] token.ASSIGN [Ident "tmpn"; Ident "tmpacc"] ].

Definition SumFor : Stmt := ForStmt None (Some (nonZero "n")) None SumStaging.

Definition SumLoopBody : list Stmt := [SumFor; ReturnStmt [Ident "acc"]].

(** The frame of [Sum] holding [n] and [acc], and the closed form of the
    sum. *)
Definition sumFrame (n acc : Z) : Env := [("acc", VInt acc); ("n", VInt n)].

Definition triangle (n : Z) : Z := (n * (n + 1) / 2)%Z.

Definition SumLoop (tn tacc : Expr) : FuncDecl :=
  {| Name := "Sum";
     Params := [mkField ["n"] tn; mkField ["acc"] tacc];
     Body := Some SumLoopBody |}.

(** The same function declared [func Sum(n, acc t)]: one field, two
    names. *)
Definition SumGrouped (t : Expr) : FuncDecl :=
  {| Name := "Sum"; Params := [mkField ["n"; "acc"] t]; Body := Some SumBody |}.

(** [for n != 0 { tmpn := n - 1; n = tmpn }; return acc] *)
Definition SumGroupedFor : Stmt :=
  ForStmt None (Some (nonZero "n")) None
    [ define "tmpn" (minus1 "n");
      AssignStmt [Ident "n"] token.ASSIGN [Ident "tmpn"] ].

Definition SumGroupedLoop (t : Expr) : FuncDecl :=
  {| Name := "Sum";
     Params := [mkField ["n"; "acc"] t];
     Body := Some [SumGroupedFor; ReturnStmt [Ident "acc"]] |}.

(** [func F(a ta, b tb) { if a == 0 { return b }; return F(b, a) }] *)
Definition SwapBody : list Stmt :=
  [ guard (isZero "a") [ReturnStmt [Ident "b"]];
    returnCall "F" [Ident "b"; Ident "a"] ].

Definition Swap (ta tb : Expr) : FuncDecl :=
  {| Name := "F";
     Params := [mkField ["a"] ta; mkField ["b"] tb];
     Body := Some SwapBody |}.

(** [tmpa := b; tmpb := a; a, b = tmpa, tmpb] *)
Definition SwapStaging : list Stmt :=
  [ define "tmpa" (Ident "b");
    define "tmpb" (Ident "a");
    AssignStmt [Ident "a"; Ident "b"] token.ASSIGN [Ident "tmpa"; Ident "tmpb"] ].

Definition SwapFor : Stmt := ForStmt None (Some (nonZero "a")) None SwapStaging.

Definition SwapLoopBody : list Stmt := [SwapFor; ReturnStmt [Ident "b"]].

Definition SwapLoop (ta tb : Expr) : FuncDecl :=
  {| Name := "F";
     Params := [mkField ["a"] ta; mkField ["b"] tb];
     Body := Some SwapLoopBody |}.

(** The frame of [F] holding [a = x] and [b = y], and the pair it holds. *)
Definition swapFrame (x y : Z) : Env :=
  [("b", VInt y); ("a", VInt x)].

Definition swapped (k : nat) (ab : Z * Z) : Z * Z :=
  Nat.iter k (fun p => (snd p, fst p)) ab.

(** The frame after [k] turns of a loop with body [body], each turn
    running the body as a block of its own. *)
Fixpoint loopTurns (prog : list FuncDecl) (body : list Stmt) (k fuel : nat)
    (env : Env) : option Env :=
  match k with
  | O => Some env
  | S k' =>
      r <-? execStmts prog fuel env body ;;
      match r with
      | Next env1 => loopTurns prog body k' fuel (leaveBlock env env1)
      | Ret _ => None
      end
  end.

(** The frame of the call [fn(args)] made from the frame [env], and the
    frame reached after [k] such calls, each made from the frame of the
    one before. *)
Definition callFrame (prog : list FuncDecl) (fn : FuncDecl) (args : list Expr)
    (fuel : nat) (env : Env) : option Env :=
  vs <-? evalExprs prog fuel env args ;; bindParams (Params fn) vs [].

Fixpoint callFrames (prog : list FuncDecl) (fn : FuncDecl) (args : list Expr)
    (k fuel : nat) (env : Env) : option Env :=
  match k with
  | O => Some env
  | S k' =>
      env' <-? callFrame prog fn args fuel env ;;
      callFrames prog fn args k' fuel env'
  end.

(** Two self-call Returns, the first inside a nested conditional:
    [func Count(n, acc) { if n == 0 { return acc };
                          if n == 1 { return Count(0, acc) };
                          return Count(n - 1, acc) }]. *)
Definition nestedReturn : Stmt := returnCall "Count" [BasicLit 0; Ident "acc"].
Definition lastReturn : Stmt := returnCall "Count" [minus1 "n"; Ident "acc"].

Definition CountBody : list Stmt :=
  [ guard (isZero "n") [ReturnStmt [Ident "acc"]];
    guard (BinaryExpr (Ident "n") token.EQL (BasicLit 1)) [nestedReturn];
    lastReturn ].

(** A guard whose then-branch starts with a call statement:
    [func Log(n) { if n == 0 { report(n); return n }; return Log(n - 1) }]. *)
Definition LogBody : list Stmt :=
  [ guard (isZero "n")
      [ ExprStmt (CallExpr (Ident "report") [Ident "n"]); ReturnStmt [Ident "n"] ];
    returnCall "Log" [minus1 "n"] ].

Definition Log : FuncDecl :=
  {| Name := "Log"; Params := [mkField ["n"] (Ident "int")]; Body := Some LogBody |}.

(** A variadic function called with its fixed argument only:
    [func Down(n int, rest ...int) { if n == 0 { return 0 }; return Down(n - 1) }]. *)
Definition DownParams : list Field :=
  [mkField ["n"] (Ident "int"); mkField ["rest"] (OtherExpr "...int")].

Definition DownBody : list Stmt :=
  [ guard (isZero "n") [ReturnStmt [BasicLit 0]];
    returnCall "Down" [minus1 "n"] ].

Definition Down : FuncDecl :=
  {| Name := "Down"; Params := DownParams; Body := Some DownBody |}.

(** The sum with a guard that compares by [<]:
    [func Sum(n, acc) { if n < 1 { return acc }; return Sum(n - 1, acc + n) }]. *)
Definition SumBelowBody : list Stmt :=
  [ guard (BinaryExpr (Ident "n") token.LSS (BasicLit 1)) [ReturnStmt [Ident "acc"]];
    returnCall "Sum" [minus1 "n"; BinaryExpr (Ident "acc") token.ADD (Ident "n")] ].

Definition SumBelow : FuncDecl :=
  {| Name := "Sum";
     Params := [mkField ["n"] (Ident "int"); mkField ["acc"] (Ident "int")];
     Body := Some SumBelowBody |}.

(** Two self-call Returns at the top level:
    [func Twice(n, acc) { if n == 0 { return acc };
                          return Twice(n - 1, acc); return Twice(n - 2, acc) }]. *)
Definition firstTop : Stmt := returnCall "Twice" [minus1 "n"; Ident "acc"].
Definition secondTop : Stmt :=
  returnCall "Twice" [BinaryExpr (Ident "n") token.SUB (BasicLit 2); Ident "acc"].

Definition TwiceGuard : Stmt := guard (isZero "n") [ReturnStmt [Ident "acc"]].

Definition TwiceBody : list Stmt := [TwiceGuard; firstTop; secondTop].

Definition Twice : FuncDecl :=
  {| Name := "Twice";
     Params := [mkField ["n"] (Ident "int"); mkField ["acc"] (Ident "int")];
     Body := Some TwiceBody |}.

(** A parameter that already has the name of a temporary:
    [func Clash(a, tmpa) { if a == 0 { return tmpa }; return Clash(a - 1, tmpa) }]. *)
Definition ClashBody : list Stmt :=
  [ guard (isZero "a") [ReturnStmt [Ident "tmpa"]];
    returnCall "Clash" [minus1 "a"; Ident "tmpa"] ].

Definition Clash : FuncDecl :=
  {| Name := "Clash";
     Params := [mkField ["a"] (Ident "int"); mkField ["tmpa"] (Ident "int")];
     Body := Some ClashBody |}.

(** Arguments that mention a parameter named like a temporary:
    [func Clash2(a int, tmpa int) int {
       if a == 0 { return tmpa }; return Clash2(a - 1, tmpa + 1) }]. *)
Definition Clash2Body : list Stmt :=
  [ guard (isZero "a") [ReturnStmt [Ident "tmpa"]];
    returnCall "Clash2"
      [minus1 "a"; BinaryExpr (Ident "tmpa") token.ADD (BasicLit 1)] ].

Definition Clash2 : FuncDecl :=
  {| Name := "Clash2";
     Params := [mkField ["a"] (Ident "int"); mkField ["tmpa"] (Ident "int")];
     Body := Some Clash2Body |}.

(** [tmpa := a - 1; tmptmpa := tmpa + 1; a, tmpa = tmpa, tmptmpa] *)
Definition Clash2Staging : list Stmt :=
  [ define "tmpa" (minus1 "a");
    define "tmptmpa" (BinaryExpr (Ident "tmpa") token.ADD (BasicLit 1));
    AssignStmt [Ident "a"; Ident "tmpa"] token.ASSIGN
               [Ident "tmpa"; Ident "tmptmpa"] ].

Definition Clash2Loop : FuncDecl :=
  {| Name := "Clash2";
     Params := [mkField ["a"] (Ident "int"); mkField ["tmpa"] (Ident "int")];
     Body := Some [ ForStmt None (Some (nonZero "a")) None Clash2Staging;
                    ReturnStmt [Ident "tmpa"] ] |}.

Definition clash2Frame (a tmpa : Z) : Env :=
  [("tmpa", VInt tmpa); ("a", VInt a)].

(** ** Properties of makeAssignStmts *)

(** Case analysis on the names of a field, keeping [named] folded. *)
Ltac case_names p :=
  let Hp := fresh "Hp" in
  let Hn := fresh "Hn" in
  destruct (Names p) as [|?n ?more] eqn:Hp;
  [ assert (Hn : named p = false) by (unfold named; now rewrite Hp)
  | assert (Hn : named p = true) by (unfold named; now rewrite Hp) ];
  rewrite ?Hn in *.

Lemma named_false (p : Field) : named p = false -> Names p = [].
Proof. unfold named. destruct (Names p); [reflexivity | discriminate]. Qed.

Lemma named_true (p : Field) :
  named p = true -> exists n more, Names p = n :: more.
Proof. unfold named. destruct (Names p) as [|n more]; [discriminate | eauto]. Qed.

Lemma firstNames_unnamed (params : list Field) :
  forallb (fun q => negb (named q)) params = true -> firstNames params = [].
Proof.
  induction params as [|p rest IH]; simpl; [reflexivity|].
  intros H. apply andb_prop in H as [Hp Hrest].
  apply negb_true_iff in Hp. rewrite (named_false _ Hp). simpl. auto.
Qed.

(** The first loop accumulates the declaring assignments and the
    temporaries of the named fields, or faults at the first named field
    that has no argument. *)
Lemma stageTmps_spec (args : list Expr) (params : list Field) :
  forall i stmts tmpNames,
    stageTmps args i params stmts tmpNames =
    if argsCover (length args) i params
    then Ok (stmts ++ tmpDecls args i params,
             tmpNames ++ map (fun n => Ident (tmpName n)) (firstNames params))
    else Panic "index out of range".
Proof.
  induction params as [|p rest IH]; intros i stmts tmpNames; simpl.
  - now rewrite !app_nil_r.
  - case_names p; simpl.
    + apply IH.
    + destruct (nth_error args i) as [a|] eqn:Ha.
      * assert (Hlt : Nat.ltb i (length args) = true).
        { apply Nat.ltb_lt. apply nth_error_Some. congruence. }
        rewrite Hlt, IH. simpl.
        destruct (argsCover (length args) (S i) rest); [|reflexivity].
        now rewrite <- !app_assoc.
      * assert (Hge : Nat.ltb i (length args) = false).
        { apply Nat.ltb_ge. now apply nth_error_None. }
        now rewrite Hge.
Qed.

(** Once every remaining field is unnamed the second loop adds nothing. *)
Lemma stageAll_unnamed (tmpNames : list Expr) (params : list Field) :
  forall i lhs rhs,
    forallb (fun q => negb (named q)) params = true ->
    stageAll tmpNames i params lhs rhs = Ok (lhs, rhs).
Proof.
  induction params as [|p rest IH]; intros i lhs rhs H; simpl; [reflexivity|].
  simpl in H. apply andb_prop in H as [Hp Hrest].
  apply negb_true_iff in Hp. rewrite (named_false _ Hp). now apply IH.
Qed.

(** A named field whose position is past the temporaries makes the
    second loop fault. *)
Lemma stageAll_short (tmpNames : list Expr) (params : list Field) :
  forall i lhs rhs,
    forallb (fun q => negb (named q)) params = false ->
    length tmpNames < i + length (firstNames params) ->
    stageAll tmpNames i params lhs rhs = Panic "index out of range".
Proof.
  induction params as [|p rest IH]; intros i lhs rhs Hn Hlen; simpl in *.
  - discriminate.
  - case_names p; simpl in *.
    + apply IH; [assumption | lia].
    + destruct (nth_error tmpNames i) as [t|] eqn:Ht; [|reflexivity].
      assert (i < length tmpNames) by (apply nth_error_Some; congruence).
      destruct (forallb (fun q => negb (named q)) rest) eqn:Hrest.
      * rewrite (firstNames_unnamed _ Hrest) in Hlen. simpl in Hlen. lia.
      * apply IH; [reflexivity | lia].
Qed.

(** The second loop, started at position [length pre] with the
    temporaries of the fields still to come after [pre]. *)
Lemma stageAll_spec (params : list Field) :
  forall (pre : list Expr) lhs rhs,
    stageAll (pre ++ map (fun n => Ident (tmpName n)) (firstNames params))
             (length pre) params lhs rhs =
    if unnamedLast params
    then Ok (lhs ++ map Ident (firstNames params),
             rhs ++ map (fun n => Ident (tmpName n)) (firstNames params))
    else Panic "index out of range".
Proof.
  induction params as [|p rest IH]; intros pre lhs rhs; simpl.
  - now rewrite !app_nil_r.
  - case_names p; simpl.
    + destruct (forallb (fun q => negb (named q)) rest) eqn:Hrest.
      * rewrite (firstNames_unnamed _ Hrest). simpl. rewrite !app_nil_r.
        now apply stageAll_unnamed.
      * apply stageAll_short; [assumption|].
        rewrite length_app, length_map. lia.
    + rewrite nth_error_app2 by lia. rewrite Nat.sub_diag. simpl.
      specialize (IH (pre ++ [Ident (tmpName n)]) (lhs ++ [Ident n])
                     (rhs ++ [Ident (tmpName n)])).
      rewrite length_app in IH. simpl in IH. rewrite Nat.add_1_r in IH.
      rewrite <- app_assoc in IH. simpl in IH. rewrite IH.
      destruct (unnamedLast rest); [|reflexivity].
      now rewrite <- !app_assoc.
Qed.

Lemma tmpDecls_unnamed (args : list Expr) (params : list Field) :
  forall i,
    forallb (fun q => negb (named q)) params = true ->
    tmpDecls args i params = [].
Proof.
  induction params as [|p rest IH]; intros i H; simpl in *; [reflexivity|].
  apply andb_prop in H as [Hp Hrest].
  apply negb_true_iff in Hp. rewrite (named_false _ Hp). now apply IH.
Qed.

Lemma skipn_nth_error {A : Type} (l : list A) :
  forall i a, nth_error l i = Some a -> skipn i l = a :: skipn (S i) l.
Proof.
  induction l as [|x l IH]; intros [|i] a H; simpl in *; try discriminate.
  - now injection H as ->.
  - now apply IH.
Qed.

(** When no fault occurs the named fields are the first ones, so that
    field and argument positions agree with the positions among the
    named fields. *)
Lemma tmpDecls_combine (args : list Expr) (params : list Field) :
  forall i,
    argsCover (length args) i params = true ->
    unnamedLast params = true ->
    tmpDecls args i params =
    map (fun na => AssignStmt [Ident (tmpName (fst na))] token.DEFINE [snd na])
        (combine (firstNames params) (skipn i args)).
Proof.
  induction params as [|p rest IH]; intros i Hcover Hlast; simpl in *;
    [reflexivity|].
  case_names p; simpl in *.
  - rewrite (firstNames_unnamed _ Hlast). now apply tmpDecls_unnamed.
  - apply andb_prop in Hcover as [Hlt Hcover]. apply Nat.ltb_lt in Hlt.
    destruct (nth_error args i) as [a|] eqn:Ha;
      [|apply nth_error_None in Ha; lia].
    rewrite (skipn_nth_error _ _ _ Ha). simpl.
    now rewrite (IH (S i)) by assumption.
Qed.

(** What makeAssignStmts returns, on every input. *)
Lemma makeAssignStmts_spec (params : list Field) (args : list Expr) :
  makeAssignStmts params args =
  if argsCover (length args) 0 params && unnamedLast params
  then Ok (staged params args)
  else Panic "index out of range".
Proof.
  unfold makeAssignStmts. rewrite stageTmps_spec.
  destruct (argsCover (length args) 0 params) eqn:Hcover; simpl; [|reflexivity].
  pose proof (stageAll_spec params [] [] []) as H. simpl in H. rewrite H.
  destruct (unnamedLast params) eqn:Hlast; [|reflexivity].
  unfold staged. now rewrite (tmpDecls_combine _ _ 0 Hcover Hlast).
Qed.

(** When it does not fault, makeAssignStmts returns the staging
    statements. *)
Lemma makeAssignStmts_Ok (params : list Field) (args : list Expr) (stmts : list Stmt) :
  makeAssignStmts params args = Ok stmts -> stmts = staged params args.
Proof.
  rewrite makeAssignStmts_spec.
  destruct (argsCover (length args) 0 params && unnamedLast params);
    congruence.
Qed.

(** When the staging does not fault every named field has its
    argument. *)
Lemma argsCover_firstNames (n : nat) (params : list Field) :
  forall i,
    argsCover n i params = true ->
    unnamedLast params = true ->
    firstNames params = [] \/ i + length (firstNames params) <= n.
Proof.
  induction params as [|p rest IH]; intros i Hcover Hlast; simpl in *;
    [now left|].
  case_names p; simpl in *.
  - left. now apply firstNames_unnamed.
  - right. apply andb_prop in Hcover as [Hlt Hcover]. apply Nat.ltb_lt in Hlt.
    destruct (IH (S i) Hcover Hlast) as [Hnil|Hle].
    + rewrite Hnil. simpl. lia.
    + lia.
Qed.

Lemma makeAssignStmts_covers (params : list Field) (args : list Expr)
    (stmts : list Stmt) :
  makeAssignStmts params args = Ok stmts ->
  length (firstNames params) <= length args.
Proof.
  rewrite makeAssignStmts_spec.
  destruct (argsCover (length args) 0 params) eqn:Hcover; [|discriminate].
  destruct (unnamedLast params) eqn:Hlast; [|discriminate].
  intros _.
  destruct (argsCover_firstNames _ _ 0 Hcover Hlast) as [Hnil|Hle].
  - rewrite Hnil. simpl. lia.
  - exact Hle.
Qed.

Lemma argsCover_named (n : nat) (params : list Field) :
  forall i,
    forallb named params = true ->
    argsCover n i params =
    match params with
    | [] => true
    | _ :: _ => Nat.leb (i + length params) n
    end.
Proof.
  induction params as [|p rest IH]; intros i H; simpl in *; [reflexivity|].
  apply andb_prop in H as [Hp Hrest]. rewrite Hp, IH by assumption. simpl.
  destruct rest as [|q rest'].
  - rewrite andb_true_r. simpl.
    destruct (Nat.ltb_spec i n); symmetry;
      [apply Nat.leb_le | apply Nat.leb_gt]; lia.
  - change (length (p :: q :: rest')) with (S (length (q :: rest'))).
    replace (i + S (length (q :: rest'))) with (S i + length (q :: rest')) by lia.
    destruct (Nat.ltb_spec i n) as [Hlt|Hge]; [reflexivity|].
    symmetry. apply Nat.leb_gt. lia.
Qed.

Lemma unnamedLast_named (params : list Field) :
  forallb named params = true -> unnamedLast params = true.
Proof.
  induction params as [|p rest IH]; simpl; [reflexivity|].
  intros H. apply andb_prop in H as [Hp Hrest]. rewrite Hp. auto.
Qed.

(** With a name in every field the only fault is a missing argument;
    arguments beyond the fields are ignored. *)
Lemma makeAssignStmts_named (params : list Field) (args : list Expr) :
  forallb named params = true ->
  makeAssignStmts params args =
  if Nat.leb (length params) (length args)
  then Ok (staged params args)
  else Panic "index out of range".
Proof.
  intros H. rewrite makeAssignStmts_spec, argsCover_named, unnamedLast_named
    by assumption.
  rewrite andb_true_r. destruct params; reflexivity.
Qed.


(** C4 (the code at an input of the claim).  [Down] has two parameter
    fields and calls itself with one argument: the staging reads
    [args[1]] and faults, and so does the rewrite of the function, where
    the claim has the one matched pair staged without any fault. *)
Theorem C4_fewer_arguments_fault :
  makeAssignStmts DownParams [minus1 "n"] = Panic "index out of range" /\
  rewriteFunc Down = Panic "index out of range".
Proof. split; reflexivity. Qed.

Lemma firstNames_named (params : list Field) :
  forallb named params = true -> firstNames params = map firstName params.
Proof.
  induction params as [|p rest IH]; simpl; [reflexivity|].
  intros H. apply andb_prop in H as [Hp Hrest].
  apply named_true in Hp as (n & more & Hp).
  unfold firstName at 1. rewrite Hp. simpl. now rewrite IH.
Qed.

Lemma combine_map_fst {A B C : Type} (f : A -> C) (l : list A) (l' : list B) :
  combine (map f l) l' = map (fun ab => (f (fst ab), snd ab)) (combine l l').
Proof.
  revert l'. induction l as [|a l IH]; intros [|b l']; simpl;
    try reflexivity.
  now rewrite IH.
Qed.

(** The targets of the staging statements are the temporaries and the
    first names. *)
Lemma staged_targets (params : list Field) (args : list Expr)
    (lhs rhs : list Expr) (tok : token.Token) (x : string) :
  In (AssignStmt lhs tok rhs) (staged params args) ->
  In (Ident x) lhs ->
  In x (map tmpName (firstNames params)) \/ In x (firstNames params).
Proof.
  unfold staged. intros Hs Hx. apply in_app_or in Hs as [Hs|[Hs|[]]].
  - left. apply in_map_iff in Hs as ([n a] & Heq & Hna).
    injection Heq as <- _ _. destruct Hx as [Hx|[]]. injection Hx as <-.
    apply in_map. apply in_combine_l in Hna. exact Hna.
  - right. injection Hs as <- _ _.
    apply in_map_iff in Hx as (n & Heq & Hn). now injection Heq as <-.
Qed.

(** C10.  Arguments are paired with fields, not with names: field [i]
    takes argument [i] however many names the fields before it declare;
    the first name of each field alone gets a temporary and is
    reassigned, and a later name of a field is the target of no staging
    statement.  So for [Sum] declared with one field only [n] is updated
    by the rewritten loop. *)
Theorem C10_grouped_names_first_only :
  (forall (params : list Field) (args : list Expr),
      forallb named params = true ->
      length params <= length args ->
      makeAssignStmts params args =
        Ok (map (fun pa => AssignStmt [Ident (tmpName (firstName (fst pa)))]
                             token.DEFINE [snd pa])
                (combine params args)
            ++ [AssignStmt (map (fun p => Ident (firstName p)) params)
                  token.ASSIGN
                  (map (fun p => Ident (tmpName (firstName p))) params)])) /\
  (forall (params : list Field) (args : list Expr) (stmts : list Stmt)
          (p : Field) (x : string),
      makeAssignStmts params args = Ok stmts ->
      In p params ->
      In x (tl (Names p)) ->
      ~ In x (firstNames params) ->
      ~ In x (map tmpName (firstNames params)) ->
      forall lhs tok rhs,
        In (AssignStmt lhs tok rhs) stmts -> ~ In (Ident x) lhs) /\
  (forall t : Expr,
      rewriteFunc (SumGrouped t) =
      Ok {| Name := "Sum";
            Params := [mkField ["n"; "acc"] t];
            Body := Some
              [ ForStmt None (Some (nonZero "n")) None
                  [ define "tmpn" (minus1 "n");
                    AssignStmt [Ident "n"] token.ASSIGN [Ident "tmpn"] ];
                ReturnStmt [Ident "acc"] ] |}).
Proof.
  split; [|split].
  - intros params args Hn Hlen.
    rewrite (makeAssignStmts_named _ _ Hn).
    replace (Nat.leb (length params) (length args)) with true
      by (symmetry; now apply Nat.leb_le).
    unfold staged. rewrite (firstNames_named _ Hn).
    rewrite combine_map_fst, !map_map. reflexivity.
  - intros params args stmts p x Hok _ _ Hfirst Htmp lhs tok rhs Hs Hx.
    apply makeAssignStmts_Ok in Hok. subst stmts.
    destruct (staged_targets _ _ _ _ _ _ Hs Hx); contradiction.
  - intros t. reflexivity.
Qed.

(** C10 at [func G(a, b int, c, d int)] and a call with four arguments:
    [c], the first name of the second field, takes the second
    argument. *)
Lemma C10_grouped_names_first_only_witness :
  makeAssignStmts [mkField ["a"; "b"] (Ident "int"); mkField ["c"; "d"] (Ident "int")]
      [Ident "w"; Ident "x"; Ident "y"; Ident "z"] =
    Ok [ define "tmpa" (Ident "w");
         define "tmpc" (Ident "x");
         AssignStmt [Ident "a"; Ident "c"] token.ASSIGN
                    [Ident "tmpa"; Ident "tmpc"] ].
Proof.
  apply (proj1 C10_grouped_names_first_only
           [mkField ["a"; "b"] (Ident "int"); mkField ["c"; "d"] (Ident "int")]
           [Ident "w"; Ident "x"; Ident "y"; Ident "z"]).
  - reflexivity.
  - simpl. lia.
Defined.

(** ** Properties of the loop condition *)

(** C8.  An equality guard becomes the inequality of the same operands
    and conversely; a comparison by any other operator and a condition
    that is no binary expression are returned as they are. *)
Theorem C8_condition_negation :
  (forall X Y : Expr,
      loopCond (BinaryExpr X token.EQL Y) = BinaryExpr X token.NEQ Y) /\
  (forall X Y : Expr,
      loopCond (BinaryExpr X token.NEQ Y) = BinaryExpr X token.EQL Y) /\
  (forall (X Y : Expr) (Op : token.Token),
      Op <> token.EQL -> Op <> token.NEQ ->
      loopCond (BinaryExpr X Op Y) = BinaryExpr X Op Y) /\
  (forall e : Expr,
      (forall X Op Y, e <> BinaryExpr X Op Y) -> loopCond e = e) /\
  (forall x : string, loopCond (isZero x) = nonZero x) /\
  (forall x : string, loopCond (nonZero x) = isZero x).
Proof.
  repeat split; try reflexivity.
  - intros X Y Op Heq Hne. destruct Op; try reflexivity; contradiction.
  - intros e He. destruct e; try reflexivity. now destruct (He e1 Op e2).
Qed.

(** C8 at the guard [n < 0] and at the guard [done]. *)
Lemma C8_condition_negation_witness :
  loopCond (BinaryExpr (Ident "n") token.LSS (BasicLit 0)) =
    BinaryExpr (Ident "n") token.LSS (BasicLit 0) /\
  loopCond (Ident "done") = Ident "done".
Proof.
  destruct C8_condition_negation as (_ & _ & Hop & Hother & _).
  split.
  - apply Hop; discriminate.
  - apply Hother; discriminate.
Defined.


(** ** Properties of the loop of main *)

Lemma isSelfCallReturn_Ok (fnName : string) (stmt : Stmt) (b : bool) :
  isSelfCallReturn fnName stmt = Ok b -> b = selfCallReturn fnName stmt.
Proof.
  unfold isSelfCallReturn, selfCallReturn.
  repeat match goal with
         | |- context [match ?x with _ => _ end] => destruct x
         end; congruence.
Qed.

Lemma nonRecursiveStmts_tail (fnName : string) (l : list Stmt) :
  forall i rest,
    nonRecursiveStmts fnName (S i) l = Ok rest -> rest = remainder fnName l.
Proof.
  induction l as [|stmt l IH]; intros i rest; simpl.
  - congruence.
  - destruct (isSelfCallReturn fnName stmt) as [b|] eqn:Hb; simpl; [|discriminate].
    apply isSelfCallReturn_Ok in Hb. subst b.
    destruct (nonRecursiveStmts fnName (S (S i)) l) as [tl|] eqn:Htl; simpl;
      [|discriminate].
    apply IH in Htl. subst tl.
    destruct (selfCallReturn fnName stmt); simpl; congruence.
Qed.

(** The guard is dropped by its position, the self-call Returns of the
    top level by their shape. *)
Lemma nonRecursiveStmts_Ok (fnName : string) (body rest : list Stmt) :
  nonRecursiveStmts fnName 0 body = Ok rest ->
  rest = remainder fnName (tl body).
Proof.
  destruct body as [|g l]; simpl.
  - congruence.
  - apply nonRecursiveStmts_tail.
Qed.

(** What a rewritten body is made of. *)
Lemma rewriteBody_Some (fn : FuncDecl) (body l : list Stmt) :
  rewriteBody fn body = Ok (Some l) ->
  exists ret callee callArgs init cond thenBranch els tl,
    findTailRecursionReturn (Name fn) body =
      Ok {| tailReturn := Some ret; call := Some (CallExpr callee callArgs) |} /\
    body = IfStmt init cond thenBranch els :: tl /\
    makeAssignStmts (Params fn) callArgs = Ok (staged (Params fn) callArgs) /\
    l = [ ForStmt None (Some (loopCond cond)) None
            (staged (Params fn) callArgs ++ remainder (Name fn) tl);
          baseReturn thenBranch ].
Proof.
  unfold rewriteBody.
  destruct (findTailRecursionReturn (Name fn) body) as [[ret c]|] eqn:Hfind;
    simpl; [|discriminate].
  destruct ret as [ret|]; [|discriminate].
  destruct c as [[ | | |callee callArgs| | ]|]; try discriminate.
  destruct body as [|[ |init cond thenBranch els| | | | | | ] tl]; try discriminate.
  destruct (makeAssignStmts (Params fn) callArgs) as [stmts|] eqn:Hstage;
    simpl; [|discriminate].
  destruct (nonRecursiveStmts (Name fn) 1 tl) as [rest|] eqn:Hrest;
    simpl; [|discriminate].
  intros H. injection H as <-.
  apply nonRecursiveStmts_tail in Hrest. subst rest.
  pose proof (makeAssignStmts_Ok _ _ _ Hstage) as ->.
  exists ret, callee, callArgs, init, cond, thenBranch, els, tl.
  repeat split; assumption.
Qed.

(** A function without a body, without a reported self-call Return or
    whose first statement is no conditional is returned as it is. *)
Lemma rewriteFunc_no_body (fn : FuncDecl) :
  Body fn = None -> rewriteFunc fn = Ok fn.
Proof. unfold rewriteFunc. now intros ->. Qed.

Lemma rewriteFunc_not_found (fn : FuncDecl) (body : list Stmt) :
  Body fn = Some body ->
  findTailRecursionReturn (Name fn) body = Ok notFound ->
  rewriteFunc fn = Ok fn.
Proof.
  unfold rewriteFunc, rewriteBody. now intros -> ->.
Qed.

Lemma rewriteFunc_no_guard (fn : FuncDecl) (body : list Stmt) (r : found) :
  Body fn = Some body ->
  findTailRecursionReturn (Name fn) body = Ok r ->
  match body with
  | IfStmt _ _ _ _ :: _ => False
  | _ => True
  end ->
  rewriteFunc fn = Ok fn.
Proof.
  unfold rewriteFunc, rewriteBody. intros -> -> Hshape. simpl.
  destruct (tailReturn r); [|reflexivity].
  destruct (call r) as [[ ]|]; try reflexivity.
  destruct body as [|[ ] tl]; try reflexivity. contradiction.
Qed.

(** C3 (the code at an input of the claim).  The then-branch of the guard
    of [Log] starts with a call statement, not with a Return; the loop of
    main still replaces the body, by the loop followed by a nil
    statement, where the claim has the body left unchanged. *)
Theorem C3_rewrites_without_base_return :
  rewriteFunc Log =
    Ok {| Name := "Log";
          Params := [mkField ["n"] (Ident "int")];
          Body := Some
            [ ForStmt None (Some (nonZero "n")) None
                [ define "tmpn" (minus1 "n");
                  AssignStmt [Ident "n"] token.ASSIGN [Ident "tmpn"] ];
              NilReturnStmt ] |} /\
  rewriteFunc Log <> Ok Log.
Proof. split; [reflexivity | discriminate]. Qed.

(** C7, as amended.  When the then-branch of the guard starts with a
    Return, the new body is two statements: the loop, whose condition is
    [loopCond] of the guard condition and whose body is the staging
    statements followed by the statements after the guard that are no
    self-call Return at the top level, and then that Return. *)
Theorem C7_new_body :
  forall (fn : FuncDecl) (init : option Stmt) (cond : Expr)
         (results : list Expr) (more : list Stmt) (els : option Stmt)
         (tl l : list Stmt),
    rewriteBody fn (IfStmt init cond (ReturnStmt results :: more) els :: tl)
      = Ok (Some l) ->
    exists ret callee callArgs,
      findTailRecursionReturn (Name fn)
        (IfStmt init cond (ReturnStmt results :: more) els :: tl) =
        Ok {| tailReturn := Some ret; call := Some (CallExpr callee callArgs) |} /\
      makeAssignStmts (Params fn) callArgs = Ok (staged (Params fn) callArgs) /\
      l = [ ForStmt None (Some (loopCond cond)) None
              (staged (Params fn) callArgs ++ remainder (Name fn) tl);
            ReturnStmt results ].
Proof.
  intros fn init cond results more els tl l H.
  apply rewriteBody_Some in H
    as (ret & callee & callArgs & init' & cond' & thenBranch & els' & tl'
        & Hfind & Hbody & Hstage & Hl).
  injection Hbody as <- <- <- <- <-.
  exists ret, callee, callArgs. repeat split; assumption.
Qed.

(** C7 at [Sum]. *)
Lemma C7_new_body_witness :
  exists ret callee callArgs,
    findTailRecursionReturn "Sum" SumBody =
      Ok {| tailReturn := Some ret; call := Some (CallExpr callee callArgs) |} /\
    makeAssignStmts (Params (Sum (Ident "int") (Ident "int"))) callArgs =
      Ok (staged (Params (Sum (Ident "int") (Ident "int"))) callArgs) /\
    SumLoopBody =
      [ ForStmt None (Some (loopCond (isZero "n"))) None
          (staged (Params (Sum (Ident "int") (Ident "int"))) callArgs
           ++ remainder "Sum" [returnCall "Sum"
                [minus1 "n"; BinaryExpr (Ident "acc") token.ADD (Ident "n")]]);
        ReturnStmt [Ident "acc"] ].
Proof.
  apply (C7_new_body (Sum (Ident "int") (Ident "int")) None (isZero "n")
           [Ident "acc"] [] None
           [returnCall "Sum"
              [minus1 "n"; BinaryExpr (Ident "acc") token.ADD (Ident "n")]]
           SumLoopBody).
  reflexivity.
Defined.

(** C7 as stated fails on [Twice]: the detector reports one of its two
    top-level self-call Returns, [secondTop], the loop body is the
    staging alone, and the other Return, [firstTop], which the stated
    remainder keeps, is gone. *)
Lemma C7_remainder_counterexample :
  findTailRecursionReturn "Twice" TwiceBody =
    Ok {| tailReturn := Some secondTop;
          call := Some (CallExpr (Ident "Twice")
                    [BinaryExpr (Ident "n") token.SUB (BasicLit 2); Ident "acc"]) |} /\
  rewriteBody Twice TwiceBody =
    Ok (Some [ ForStmt None (Some (nonZero "n")) None
                 (staged (Params Twice)
                    [BinaryExpr (Ident "n") token.SUB (BasicLit 2); Ident "acc"]);
               ReturnStmt [Ident "acc"] ]) /\
  ~ (exists rem,
        exceptGuardAndReported TwiceBody secondTop rem /\
        staged (Params Twice)
          [BinaryExpr (Ident "n") token.SUB (BasicLit 2); Ident "acc"] =
        staged (Params Twice)
          [BinaryExpr (Ident "n") token.SUB (BasicLit 2); Ident "acc"] ++ rem).
Proof.
  split; [reflexivity|]. split; [reflexivity|].
  intros (rem & Hrem & Heq).
  assert (Hnil : rem = []).
  { apply (f_equal (@length Stmt)) in Heq. rewrite length_app in Heq.
    destruct rem; [reflexivity | simpl in Heq; lia]. }
  subst rem.
  apply (proj2 (Hrem firstTop)).
  split; [simpl; auto | discriminate].
Qed.

(** ** Identifiers of the rewritten body *)

Lemma identsExpr_loopCond (cond : Expr) :
  identsExpr (loopCond cond) = identsExpr cond.
Proof. destruct cond as [ | |X Op Y| | | ]; try reflexivity. now destruct Op. Qed.

Lemma idents_remainder (fnName x : string) (tl : list Stmt) :
  In x (flat_map identsStmt (remainder fnName tl)) ->
  In x (flat_map identsStmt tl).
Proof.
  unfold remainder. rewrite !in_flat_map.
  intros (s & Hs & Hx). apply filter_In in Hs as [Hs _]. eauto.
Qed.

Lemma idents_baseReturn (x : string) (thenBranch : list Stmt) :
  In x (identsStmt (baseReturn thenBranch)) ->
  In x (flat_map identsStmt thenBranch).
Proof.
  destruct thenBranch as [|[ ] more]; simpl; try contradiction.
  intros H. apply in_or_app. now left.
Qed.

Lemma idents_of_names (f : string -> string) (names : list string) :
  flat_map identsExpr (map (fun n => Ident (f n)) names) = map f names.
Proof. induction names as [|n names IH]; simpl; [reflexivity | now rewrite IH]. Qed.

(** Every temporary occurs in the staging statements. *)
Lemma temporaries_staged (params : list Field) (args : list Expr) (t : string) :
  In t (map tmpName (firstNames params)) ->
  In t (flat_map identsStmt (staged params args)).
Proof.
  intros Ht. unfold staged. rewrite flat_map_app. apply in_or_app. right.
  simpl. rewrite app_nil_r. apply in_or_app. right.
  now rewrite idents_of_names.
Qed.

Lemma combine_In_l {A B : Type} (l : list A) (l' : list B) (x : A) :
  In x l -> length l <= length l' -> exists y, In (x, y) (combine l l').
Proof.
  revert l'. induction l as [|a l IH]; intros [|b l'] Hx Hlen; simpl in *;
    try contradiction; try lia.
  destruct Hx as [<-|Hx]; [exists b; now left|].
  destruct (IH l' Hx ltac:(lia)) as [y Hy]. exists y. now right.
Qed.

(** The declaring assignments of the staging statements declare the
    temporaries and nothing else. *)
Lemma staged_declares (params : list Field) (args : list Expr) (t : string) :
  length (firstNames params) <= length args ->
  In t (map tmpName (firstNames params)) <->
  exists a, In (AssignStmt [Ident t] token.DEFINE [a]) (staged params args).
Proof.
  intros Hlen. unfold staged. split.
  - intros Ht. apply in_map_iff in Ht as (n & <- & Hn).
    destruct (combine_In_l _ args n Hn Hlen) as [a Ha].
    exists a. apply in_or_app. left.
    apply in_map_iff. now exists (n, a).
  - intros (a & Ha). apply in_app_or in Ha as [Ha|[Ha|[]]]; [|discriminate].
    apply in_map_iff in Ha as ([n b] & Heq & Hnb). injection Heq as <- _.
    apply in_map. now apply in_combine_l in Hnb.
Qed.

(** C9, as amended.  In every rewritten function the temporaries are
    ["tmp"] followed by the first name of each named field, whatever the
    function contains, and the declaring assignments of the staging
    statements, built from the call the detector reported, declare
    exactly them.  When none of these names occurs in the function,
    every temporary occurs in the staging statements at the head of the
    loop body and nowhere else in the new body: not in the loop
    condition, not in the statements kept after the staging, not in the
    statement after the loop. *)
Theorem C9_temporaries_in_staging_only :
  forall (fn : FuncDecl) (l : list Stmt),
    rewrittenTo fn l ->
    exists body ret callee callArgs cond rest after,
      Body fn = Some body /\
      findTailRecursionReturn (Name fn) body =
        Ok {| tailReturn := Some ret; call := Some (CallExpr callee callArgs) |} /\
      l = [ ForStmt None (Some cond) None (staged (Params fn) callArgs ++ rest);
            after ] /\
      (forall t,
          In t (map (fun n => ("tmp" ++ n)%string) (firstNames (Params fn))) <->
          exists a,
            In (AssignStmt [Ident t] token.DEFINE [a])
               (staged (Params fn) callArgs)) /\
      (forall t, In t (temporaries fn) ->
          In t (flat_map identsStmt (staged (Params fn) callArgs))) /\
      (freshTemporaries fn ->
       forall t, In t (temporaries fn) ->
         ~ In t (identsExpr cond) /\
         ~ In t (flat_map identsStmt rest) /\
         ~ In t (identsStmt after)).
Proof.
  intros fn l (body & Hbody & Hrw).
  apply rewriteBody_Some in Hrw
    as (ret & callee & callArgs & init & cond & thenBranch & els & tl
        & Hfind & -> & Hstage & ->).
  exists (IfStmt init cond thenBranch els :: tl), ret, callee, callArgs,
    (loopCond cond), (remainder (Name fn) tl), (baseReturn thenBranch).
  split; [exact Hbody|]. split; [exact Hfind|]. split; [reflexivity|].
  split; [|split].
  - intros t. apply staged_declares.
    now apply makeAssignStmts_covers in Hstage.
  - intros t Ht. now apply temporaries_staged.
  - intros Hfresh t Ht.
    assert (Hbodyids : forall x,
               In x (flat_map identsStmt (IfStmt init cond thenBranch els :: tl)) ->
               In x (identsFunc fn)).
    { intros x Hx. unfold identsFunc. rewrite Hbody. right.
      apply in_or_app. now right. }
    specialize (Hfresh t Ht).
    repeat split; intros Hin; apply Hfresh, Hbodyids; simpl.
    + rewrite identsExpr_loopCond in Hin.
      apply in_or_app. left. apply in_or_app. right. apply in_or_app. now left.
    + apply in_or_app. right. now apply idents_remainder in Hin.
    + apply in_or_app. left. apply in_or_app. right. apply in_or_app. right.
      apply in_or_app. left. now apply idents_baseReturn.
Qed.

(** C9 at [Sum]: its temporaries [tmpn] and [tmpacc] are no identifiers
    of the function. *)
Lemma C9_temporaries_in_staging_only_witness :
  freshTemporaries (Sum (Ident "int") (Ident "int")) /\
  exists body ret callee callArgs cond rest after,
    Body (Sum (Ident "int") (Ident "int")) = Some body /\
    findTailRecursionReturn (Name (Sum (Ident "int") (Ident "int"))) body =
      Ok {| tailReturn := Some ret; call := Some (CallExpr callee callArgs) |} /\
    SumLoopBody =
      [ ForStmt None (Some cond) None
          (staged (Params (Sum (Ident "int") (Ident "int"))) callArgs ++ rest);
        after ] /\
    (forall t,
        In t (map (fun n => ("tmp" ++ n)%string)
                  (firstNames (Params (Sum (Ident "int") (Ident "int"))))) <->
        exists a,
          In (AssignStmt [Ident t] token.DEFINE [a])
             (staged (Params (Sum (Ident "int") (Ident "int"))) callArgs)) /\
    (forall t, In t (temporaries (Sum (Ident "int") (Ident "int"))) ->
        In t (flat_map identsStmt
                (staged (Params (Sum (Ident "int") (Ident "int"))) callArgs))) /\
    (freshTemporaries (Sum (Ident "int") (Ident "int")) ->
     forall t, In t (temporaries (Sum (Ident "int") (Ident "int"))) ->
       ~ In t (identsExpr cond) /\
       ~ In t (flat_map identsStmt rest) /\
       ~ In t (identsStmt after)).
Proof.
  split.
  - intros t Ht Hin. simpl in Ht, Hin.
    repeat match goal with
           | H : _ \/ _ |- _ => destruct H as [H|H]
           | H : False |- _ => contradiction
           end;
    subst t;
    repeat match goal with
           | H : _ \/ _ |- _ => destruct H as [H|H]
           | H : False |- _ => contradiction
           | H : _ = _ |- _ => discriminate H
           end.
  - apply (C9_temporaries_in_staging_only
             (Sum (Ident "int") (Ident "int")) SumLoopBody).
    exists SumBody. split; reflexivity.
Defined.

(** The text of a statement the program does not interpret counts: a
    function whose body keeps [tmpn++] mentions the temporary of its
    parameter [n]. *)
Example freshTemporaries_sees_text :
  ~ freshTemporaries
      {| Name := "G";
         Params := [mkField ["n"] (Ident "int")];
         Body := Some [ guard (isZero "n") [ReturnStmt [Ident "n"]];
                        OtherStmt "tmpn++";
                        returnCall "G" [minus1 "n"] ] |}.
Proof.
  intros Hfresh. apply (Hfresh "tmpn"); [now left|].
  unfold identsFunc. simpl. auto 10.
Qed.

(** C9 as stated fails on [Clash]: it is rewritten, its temporary
    ["tmpa"] is the name of its second parameter, and that name occurs
    in the Return placed after the loop. *)
Lemma C9_fresh_counterexample :
  rewrittenTo Clash
    [ ForStmt None (Some (nonZero "a")) None
        [ define "tmpa" (minus1 "a");
          define "tmptmpa" (Ident "tmpa");
          AssignStmt [Ident "a"; Ident "tmpa"] token.ASSIGN
                     [Ident "tmpa"; Ident "tmptmpa"] ];
      ReturnStmt [Ident "tmpa"] ] /\
  In "tmpa" (temporaries Clash) /\
  In "tmpa" (identsFunc Clash) /\
  In "tmpa" (identsStmt (ReturnStmt [Ident "tmpa"])) /\
  ~ freshTemporaries Clash.
Proof.
  assert (Ht : In "tmpa" (temporaries Clash)) by (simpl; auto).
  assert (Hi : In "tmpa" (identsFunc Clash)) by (simpl; auto 10).
  repeat split; try assumption.
  - exists ClashBody. split; reflexivity.
  - simpl. auto.
  - intros Hfresh. exact (Hfresh "tmpa" Ht Hi).
Qed.


(** ** Properties of findTailRecursionReturn *)

(** The closure neither stops at an expression nor changes its state
    there. *)
Lemma InspectExpr_visit (fnName : string) (e : Expr) :
  forall cur, InspectExpr (visit fnName) e (Ok cur) = Ok cur.
Proof.
  induction e as [x|z|X IHX Op Y IHY|Fun IHFun Args IHArgs|X IHX Sel|text];
    intros cur; simpl; rewrite ?IHX, ?IHY, ?IHFun; try reflexivity.
  induction IHArgs as [|a Ha l Hl IHl]; simpl; [reflexivity|].
  now rewrite Ha.
Qed.

Lemma InspectExprs_visit (fnName : string) (l : list Expr) :
  forall cur,
    fold_left (fun s a => InspectExpr (visit fnName) a s) l (Ok cur) = Ok cur.
Proof.
  induction l as [|e l IH]; intros cur; simpl; [reflexivity|].
  now rewrite InspectExpr_visit.
Qed.

Lemma lastFound_app (cur : found) (l1 l2 : list Stmt) :
  lastFound cur (l1 ++ l2) = lastFound (lastFound cur l1) l2.
Proof. apply fold_left_app. Qed.

Lemma walkList_visit (fnName : string) (l : list Stmt) :
  list_all Stmt (reports fnName) l ->
  forallb parsed l = true ->
  forall cur,
    fold_left (fun st x => InspectStmt (visit fnName) x st) l (Ok cur) =
    Ok (lastFound cur (flat_map (selfCallReturns fnName) l)).
Proof.
  induction 1 as [|s Hs l Hl IH]; intros Hp cur; simpl in *; [reflexivity|].
  apply andb_prop in Hp as [Hps Hpl].
  rewrite (Hs Hps), IH by assumption. now rewrite lastFound_app.
Qed.

Lemma walkOpt_visit (fnName : string) (o : option Stmt) :
  option_all Stmt (reports fnName) o ->
  match o with Some x => parsed x | None => true end = true ->
  forall cur,
    match o with
    | Some x => InspectStmt (visit fnName) x (Ok cur)
    | None => Ok cur
    end =
    Ok (lastFound cur match o with
                      | Some x => selfCallReturns fnName x
                      | None => []
                      end).
Proof.
  intros [x Hx|] Hp cur; [now apply Hx | reflexivity].
Qed.

(** The walk does not end at the first self-call Return: answering
    [false] there skips the results of that Return only, and each later
    self-call Return overwrites what the closure holds. *)
Lemma InspectStmt_visit (fnName : string) (s : Stmt) : reports fnName s.
Proof.
  induction s as [List IHList
                 |Init IHInit Cond Body IHBody Else IHElse
                 |Init IHInit Cond Post IHPost Body IHBody
                 |Results|Lhs Tok Rhs|X|text| ]; intros Hp cur.
  - simpl in *. now rewrite walkList_visit.
  - simpl in *. apply andb_prop in Hp as [Hp HpElse].
    apply andb_prop in Hp as [HpInit HpBody].
    rewrite (walkOpt_visit _ _ IHInit HpInit), InspectExpr_visit. simpl.
    rewrite walkList_visit by assumption. simpl.
    rewrite (walkOpt_visit _ _ IHElse HpElse). simpl.
    now rewrite !lastFound_app.
  - simpl in *. apply andb_prop in Hp as [Hp HpBody].
    apply andb_prop in Hp as [HpInit HpPost].
    rewrite (walkOpt_visit _ _ IHInit HpInit).
    replace (InspectOptExpr (visit fnName) Cond (Ok (lastFound cur
               match Init with Some x => selfCallReturns fnName x | None => [] end)))
      with (Ok (A:=found) (lastFound cur
               match Init with Some x => selfCallReturns fnName x | None => [] end))
      by (destruct Cond; simpl; now rewrite ?InspectExpr_visit).
    rewrite (walkOpt_visit _ _ IHPost HpPost). simpl.
    rewrite walkList_visit by assumption. simpl.
    now rewrite !lastFound_app.
  - destruct Results as [|r rs].
    + reflexivity.
    + destruct rs as [|r' rs].
      * destruct r as [x|z|X Op Y|Fun Args|X Sel|text].
        all: try (simpl; now rewrite ?InspectExpr_visit).
        destruct Fun as [funName|z|X Op Y|Fun' Args'|X Sel|text]; simpl.
        all: unfold InspectExprs; simpl.
        all: rewrite ?InspectExpr_visit; simpl.
        all: rewrite ?(InspectExprs_visit fnName); simpl.
        all: rewrite ?(InspectExprs_visit fnName); simpl.
        all: try reflexivity.
        destruct (String.eqb funName fnName); simpl; [reflexivity|].
        now rewrite (InspectExprs_visit fnName).
      * simpl. unfold InspectExprs; simpl.
        rewrite !InspectExpr_visit.
        rewrite (InspectExprs_visit fnName). simpl.
        destruct r as [ | | |Fun Args| | ]; try reflexivity.
        destruct Fun; reflexivity.
  - simpl. unfold InspectExprs. now rewrite !InspectExprs_visit.
  - simpl. now rewrite InspectExpr_visit.
  - reflexivity.
  - discriminate.
Qed.

(** On a parsed body the detector reports the last self-call Return in
    the order of the walk, and nothing when there is none. *)
Lemma findTailRecursionReturn_last (fnName : string) (body : list Stmt) :
  forallb parsed body = true ->
  findTailRecursionReturn fnName body =
  Ok (lastFound notFound (flat_map (selfCallReturns fnName) body)).
Proof.
  intros Hp. unfold findTailRecursionReturn.
  now rewrite (InspectStmt_visit fnName (BlockStmt body) Hp).
Qed.

Lemma findTailRecursionReturn_none (fnName : string) (body : list Stmt) :
  forallb parsed body = true ->
  flat_map (selfCallReturns fnName) body = [] ->
  findTailRecursionReturn fnName body = Ok notFound.
Proof.
  intros Hp Hnone. rewrite findTailRecursionReturn_last by assumption.
  now rewrite Hnone.
Qed.

(** C2 (the code at an input of the claim).  The body of [Count] holds
    two self-call Returns; in the order of the walk the first is
    [nestedReturn], inside the second conditional, and the detector
    reports the other one, [lastReturn]. *)
Theorem C2_reports_last_return :
  selfCallReturns "Count" (BlockStmt CountBody) = [nestedReturn; lastReturn] /\
  findTailRecursionReturn "Count" CountBody = Ok (foundOf lastReturn) /\
  findTailRecursionReturn "Count" CountBody <> Ok (foundOf nestedReturn).
Proof. split; [reflexivity|]. split; [reflexivity | discriminate]. Qed.

(** ** Parameter lists with unnamed fields *)




(** ** Properties of the evaluator *)

Section Fuel.
Variable prog : list FuncDecl.

(** More fuel never changes a result. *)
Lemma fuel_mono :
  forall fuel,
    (forall env e v, evalExpr prog fuel env e = Some v ->
       forall fuel', fuel <= fuel' -> evalExpr prog fuel' env e = Some v) /\
    (forall env l vs, evalExprs prog fuel env l = Some vs ->
       forall fuel', fuel <= fuel' -> evalExprs prog fuel' env l = Some vs) /\
    (forall env s r, execStmt prog fuel env s = Some r ->
       forall fuel', fuel <= fuel' -> execStmt prog fuel' env s = Some r) /\
    (forall env l r, execStmts prog fuel env l = Some r ->
       forall fuel', fuel <= fuel' -> execStmts prog fuel' env l = Some r) /\
    (forall fn vs rs, callFunc prog fuel fn vs = Some rs ->
       forall fuel', fuel <= fuel' -> callFunc prog fuel' fn vs = Some rs).
Proof.
  induction fuel as [|fuel (IHe & IHes & IHs & IHss & IHc)].
  - repeat split; intros; discriminate.
  - assert (IH : forall fuel', S fuel <= S fuel' -> fuel <= fuel')
      by (intros; lia).
    repeat split; intros until 1; intros [|fuel'] Hle; try lia; apply IH in Hle;
      simpl in *;
      repeat match goal with
      | H : match ?m with _ => _ end = Some _ |- _ =>
          destruct m eqn:?; try discriminate H; subst
      | H : Some _ = Some _ |- _ => inversion H; subst; clear H
      end;
      repeat match goal with
      | E : evalExpr prog fuel _ _ = Some _ |- _ => eapply IHe in E; [|exact Hle]
      | E : evalExprs prog fuel _ _ = Some _ |- _ => eapply IHes in E; [|exact Hle]
      | E : execStmt prog fuel _ _ = Some _ |- _ => eapply IHs in E; [|exact Hle]
      | E : execStmts prog fuel _ _ = Some _ |- _ => eapply IHss in E; [|exact Hle]
      | E : callFunc prog fuel _ _ = Some _ |- _ => eapply IHc in E; [|exact Hle]
      end;
      repeat match goal with
      | E : ?lhs = _ |- context [?lhs] => rewrite E; simpl
      end;
      try assumption; try congruence.
Qed.

Lemma evalExpr_mono (fuel fuel' : nat) (env : Env) (e : Expr) (v : Value) :
  evalExpr prog fuel env e = Some v -> fuel <= fuel' ->
  evalExpr prog fuel' env e = Some v.
Proof. intros. eapply (fuel_mono fuel); eassumption. Qed.

Lemma evalExprs_mono (fuel fuel' : nat) (env : Env) (l : list Expr) (vs : list Value) :
  evalExprs prog fuel env l = Some vs -> fuel <= fuel' ->
  evalExprs prog fuel' env l = Some vs.
Proof. intros. eapply (fuel_mono fuel); eassumption. Qed.

Lemma execStmt_mono (fuel fuel' : nat) (env : Env) (s : Stmt) (r : Flow) :
  execStmt prog fuel env s = Some r -> fuel <= fuel' ->
  execStmt prog fuel' env s = Some r.
Proof. intros. eapply (fuel_mono fuel); eassumption. Qed.

Lemma execStmts_mono (fuel fuel' : nat) (env : Env) (l : list Stmt) (r : Flow) :
  execStmts prog fuel env l = Some r -> fuel <= fuel' ->
  execStmts prog fuel' env l = Some r.
Proof. intros. eapply (fuel_mono fuel); eassumption. Qed.

Lemma callFunc_mono (fuel fuel' : nat) (fn : FuncDecl) (vs rs : list Value) :
  callFunc prog fuel fn vs = Some rs -> fuel <= fuel' ->
  callFunc prog fuel' fn vs = Some rs.
Proof. intros. eapply (fuel_mono fuel); eassumption. Qed.

(** A result obtained with little fuel is the result obtained with
    more. *)
Lemma evalExpr_agrees (k fuel : nat) (env : Env) (e : Expr) (v w : Value) :
  evalExpr prog k env e = Some v -> evalExpr prog fuel env e = Some w -> w = v.
Proof.
  intros Hk Hf.
  apply evalExpr_mono with (fuel' := Nat.max k fuel) in Hk; [|lia].
  apply evalExpr_mono with (fuel' := Nat.max k fuel) in Hf; [|lia].
  congruence.
Qed.

Lemma evalExprs_agrees (k fuel : nat) (env : Env) (l : list Expr) (vs ws : list Value) :
  evalExprs prog k env l = Some vs -> evalExprs prog fuel env l = Some ws -> ws = vs.
Proof.
  intros Hk Hf.
  apply evalExprs_mono with (fuel' := Nat.max k fuel) in Hk; [|lia].
  apply evalExprs_mono with (fuel' := Nat.max k fuel) in Hf; [|lia].
  congruence.
Qed.

Lemma execStmt_agrees (k fuel : nat) (env : Env) (s : Stmt) (r r' : Flow) :
  execStmt prog k env s = Some r -> execStmt prog fuel env s = Some r' -> r' = r.
Proof.
  intros Hk Hf.
  apply execStmt_mono with (fuel' := Nat.max k fuel) in Hk; [|lia].
  apply execStmt_mono with (fuel' := Nat.max k fuel) in Hf; [|lia].
  congruence.
Qed.

Lemma execStmts_agrees (k fuel : nat) (env : Env) (l : list Stmt) (r r' : Flow) :
  execStmts prog k env l = Some r -> execStmts prog fuel env l = Some r' -> r' = r.
Proof.
  intros Hk Hf.
  apply execStmts_mono with (fuel' := Nat.max k fuel) in Hk; [|lia].
  apply execStmts_mono with (fuel' := Nat.max k fuel) in Hf; [|lia].
  congruence.
Qed.

(** A call has at most one result. *)
Lemma callFunc_unique (fn : FuncDecl) (vs rs rs' : list Value) :
  eventually (fun fuel => callFunc prog fuel fn vs) rs ->
  eventually (fun fuel => callFunc prog fuel fn vs) rs' ->
  rs = rs'.
Proof.
  intros [f1 H1] [f2 H2].
  specialize (H1 (Nat.max f1 f2)). specialize (H2 (Nat.max f1 f2)).
  rewrite H1 in H2 by lia. injection H2; [auto | lia].
Qed.

Lemma evalExpr_eventually (k : nat) (env : Env) (e : Expr) (v : Value) :
  evalExpr prog k env e = Some v ->
  eventually (fun fuel => evalExpr prog fuel env e) v.
Proof. intros H. exists k. intros fuel Hle. eapply (fuel_mono k); eassumption. Qed.

Lemma evalExprs_eventually (k : nat) (env : Env) (l : list Expr) (vs : list Value) :
  evalExprs prog k env l = Some vs ->
  eventually (fun fuel => evalExprs prog fuel env l) vs.
Proof. intros H. exists k. intros fuel Hle. eapply (fuel_mono k); eassumption. Qed.

Lemma execStmt_eventually (k : nat) (env : Env) (s : Stmt) (r : Flow) :
  execStmt prog k env s = Some r ->
  eventually (fun fuel => execStmt prog fuel env s) r.
Proof. intros H. exists k. intros fuel Hle. eapply (fuel_mono k); eassumption. Qed.

Lemma execStmts_eventually (k : nat) (env : Env) (l : list Stmt) (r : Flow) :
  execStmts prog k env l = Some r ->
  eventually (fun fuel => execStmts prog fuel env l) r.
Proof. intros H. exists k. intros fuel Hle. eapply (fuel_mono k); eassumption. Qed.

(** Running a statement list: its head, then its tail. *)
Lemma execStmts_cons_Next (env env' : Env) (s : Stmt) (l : list Stmt) (r : Flow) :
  eventually (fun fuel => execStmt prog fuel env s) (Next env') ->
  eventually (fun fuel => execStmts prog fuel env' l) r ->
  eventually (fun fuel => execStmts prog fuel env (s :: l)) r.
Proof.
  intros [f1 H1] [f2 H2]. exists (S (Nat.max f1 f2)).
  intros [|fuel] Hle; [lia|]. simpl.
  rewrite H1 by lia. apply H2. lia.
Qed.

Lemma execStmts_cons_Ret (env : Env) (s : Stmt) (l : list Stmt) (vs : list Value) :
  eventually (fun fuel => execStmt prog fuel env s) (Ret vs) ->
  eventually (fun fuel => execStmts prog fuel env (s :: l)) (Ret vs).
Proof.
  intros [f1 H1]. exists (S f1).
  intros [|fuel] Hle; [lia|]. simpl. now rewrite H1 by lia.
Qed.

(** One turn of a loop without init and post statements. *)
Lemma execStmt_For_true (env env1 : Env) (cond : Expr) (body : list Stmt) (r : Flow) :
  eventually (fun fuel => evalExpr prog fuel env cond) (VBool true) ->
  eventually (fun fuel => execStmts prog fuel env body) (Next env1) ->
  eventually (fun fuel =>
     execStmt prog fuel (leaveBlock env env1) (ForStmt None (Some cond) None body)) r ->
  eventually (fun fuel => execStmt prog fuel env (ForStmt None (Some cond) None body)) r.
Proof.
  intros [f1 H1] [f2 H2] [f3 H3]. exists (S (Nat.max f1 (Nat.max f2 f3))).
  intros [|fuel] Hle; [lia|]. simpl.
  rewrite H1 by lia. rewrite H2 by lia. simpl. apply H3. lia.
Qed.

Lemma execStmt_For_false (env : Env) (cond : Expr) (body : list Stmt) :
  eventually (fun fuel => evalExpr prog fuel env cond) (VBool false) ->
  eventually (fun fuel => execStmt prog fuel env (ForStmt None (Some cond) None body))
             (Next env).
Proof.
  intros [f1 H1]. exists (S f1).
  intros [|fuel] Hle; [lia|]. simpl. now rewrite H1 by lia.
Qed.

(** A call of a function of the source unit. *)
Lemma callFunc_eventually (fn : FuncDecl) (body : list Stmt) (vs rs : list Value)
    (env : Env) :
  Body fn = Some body ->
  bindParams (Params fn) vs [] = Some env ->
  eventually (fun fuel => execStmts prog fuel env body) (Ret rs) ->
  eventually (fun fuel => callFunc prog fuel fn vs) rs.
Proof.
  intros Hbody Hbind [f1 H1]. exists (S f1).
  intros [|fuel] Hle; [lia|]. simpl.
  rewrite Hbody, Hbind. now rewrite H1 by lia.
Qed.

Lemma execStmt_return_call (env : Env) (f : string) (fn : FuncDecl)
    (args : list Expr) (vs : list Value) (v : Value) :
  eventually (fun fuel => evalExprs prog fuel env args) vs ->
  findFunc f prog = Some fn ->
  eventually (fun fuel => callFunc prog fuel fn vs) [v] ->
  eventually (fun fuel => execStmt prog fuel env (ReturnStmt [CallExpr (Ident f) args]))
             (Ret [v]).
Proof.
  intros [f1 H1] Hfind [f2 H2]. exists (3 + Nat.max f1 f2).
  intros fuel Hle.
  destruct fuel as [|[|[|fuel]]]; try lia. simpl.
  rewrite H1 by lia. rewrite Hfind. rewrite H2 by lia.
  reflexivity.
Qed.
End Fuel.

(** ** The accumulator scenario *)

Lemma triangle_succ (n : Z) :
  (0 <= n -> triangle (n + 1) = (n + 1) + triangle n)%Z.
Proof.
  intros Hn. unfold triangle.
  replace ((n + 1) * (n + 1 + 1))%Z with (n * (n + 1) + (n + 1) * 2)%Z by ring.
  rewrite Z.div_add by lia. ring.
Qed.

Section SumRuns.
Variable prog : list FuncDecl.

Lemma SumFor_runs (m : nat) :
  forall acc,
    eventually (fun fuel => execStmt prog fuel (sumFrame (Z.of_nat m) acc) SumFor)
               (Next (sumFrame 0 (acc + triangle (Z.of_nat m))%Z)).
Proof.
  induction m as [|m IH]; intros acc.
  - apply (execStmt_eventually prog 3). simpl. unfold sumFrame, triangle. simpl.
    now rewrite Z.add_0_r.
  - unfold SumFor.
    apply execStmt_For_true
      with (env1 := ("tmpacc", VInt (acc + Z.of_nat (S m))%Z)
                    :: ("tmpn", VInt (Z.of_nat (S m) - 1)%Z)
                    :: sumFrame (Z.of_nat (S m) - 1)%Z (acc + Z.of_nat (S m))%Z).
    + apply (evalExpr_eventually prog 3). reflexivity.
    + apply (execStmts_eventually prog 10). reflexivity.
    + replace (leaveBlock _ _)
        with (sumFrame (Z.of_nat m) (acc + Z.of_nat (S m))%Z).
      * replace (acc + triangle (Z.of_nat (S m)))%Z
          with (acc + Z.of_nat (S m) + triangle (Z.of_nat m))%Z.
        -- apply IH.
        -- rewrite Nat2Z.inj_succ, <- Z.add_1_r, triangle_succ by lia. ring.
      * unfold leaveBlock, sumFrame. cbn [length skipn Nat.sub]. repeat f_equal. lia.
Qed.
End SumRuns.

(** The rewritten function runs its loop and returns the accumulator. *)
Lemma SumLoop_runs (prog : list FuncDecl) (tn tacc : Expr) (m : nat) (acc : Z) :
  eventually
    (fun fuel => callFunc prog fuel (SumLoop tn tacc) [VInt (Z.of_nat m); VInt acc])
    [VInt (acc + triangle (Z.of_nat m))%Z].
Proof.
  apply callFunc_eventually
    with (body := SumLoopBody) (env := sumFrame (Z.of_nat m) acc);
    try reflexivity.
  eapply execStmts_cons_Next; [apply SumFor_runs|].
  apply (execStmts_eventually prog 5). reflexivity.
Qed.

(** The original function calls itself down to [n = 0]. *)
Lemma Sum_runs (prog : list FuncDecl) (tn tacc : Expr) (m : nat) :
  findFunc "Sum" prog = Some (Sum tn tacc) ->
  forall acc,
    eventually
      (fun fuel => callFunc prog fuel (Sum tn tacc) [VInt (Z.of_nat m); VInt acc])
      [VInt (acc + triangle (Z.of_nat m))%Z].
Proof.
  intros Hfind. induction m as [|m IH]; intros acc.
  - apply callFunc_eventually
      with (body := SumBody) (env := sumFrame 0 acc); try reflexivity.
    apply (execStmts_eventually prog 6). unfold triangle. simpl.
    now rewrite Z.add_0_r.
  - apply callFunc_eventually
      with (body := SumBody) (env := sumFrame (Z.of_nat (S m)) acc);
      try reflexivity.
    apply execStmts_cons_Next with (env' := sumFrame (Z.of_nat (S m)) acc).
    + apply (execStmt_eventually prog 4). reflexivity.
    + apply execStmts_cons_Ret.
      apply execStmt_return_call
        with (fn := Sum tn tacc)
             (vs := [VInt (Z.of_nat m); VInt (acc + Z.of_nat (S m))%Z]).
      * apply (evalExprs_eventually prog 5).
        replace (Z.of_nat m) with (Z.of_nat (S m) - 1)%Z by lia.
        reflexivity.
      * assumption.
      * replace (acc + triangle (Z.of_nat (S m)))%Z
          with (acc + Z.of_nat (S m) + triangle (Z.of_nat m))%Z.
        -- apply IH.
        -- rewrite Nat2Z.inj_succ, <- Z.add_1_r, triangle_succ by lia. ring.
Qed.

(** The same for [Sum] declared with one field: the frame of a call is
    the same, and so is the body. *)
Lemma SumGrouped_runs (prog : list FuncDecl) (t : Expr) (m : nat) :
  findFunc "Sum" prog = Some (SumGrouped t) ->
  forall acc,
    eventually
      (fun fuel => callFunc prog fuel (SumGrouped t) [VInt (Z.of_nat m); VInt acc])
      [VInt (acc + triangle (Z.of_nat m))%Z].
Proof.
  intros Hfind. induction m as [|m IH]; intros acc.
  - apply callFunc_eventually
      with (body := SumBody) (env := sumFrame 0 acc); try reflexivity.
    apply (execStmts_eventually prog 6). unfold triangle. simpl.
    now rewrite Z.add_0_r.
  - apply callFunc_eventually
      with (body := SumBody) (env := sumFrame (Z.of_nat (S m)) acc);
      try reflexivity.
    apply execStmts_cons_Next with (env' := sumFrame (Z.of_nat (S m)) acc).
    + apply (execStmt_eventually prog 4). reflexivity.
    + apply execStmts_cons_Ret.
      apply execStmt_return_call
        with (fn := SumGrouped t)
             (vs := [VInt (Z.of_nat m); VInt (acc + Z.of_nat (S m))%Z]).
      * apply (evalExprs_eventually prog 5).
        replace (Z.of_nat m) with (Z.of_nat (S m) - 1)%Z by lia.
        reflexivity.
      * assumption.
      * replace (acc + triangle (Z.of_nat (S m)))%Z
          with (acc + Z.of_nat (S m) + triangle (Z.of_nat m))%Z.
        -- apply IH.
        -- rewrite Nat2Z.inj_succ, <- Z.add_1_r, triangle_succ by lia. ring.
Qed.

(** The loop written for the one-field declaration counts [n] down and
    leaves [acc] as it is. *)
Lemma SumGroupedFor_runs (prog : list FuncDecl) (m : nat) :
  forall acc,
    eventually
      (fun fuel => execStmt prog fuel (sumFrame (Z.of_nat m) acc) SumGroupedFor)
      (Next (sumFrame 0 acc)).
Proof.
  induction m as [|m IH]; intros acc.
  - apply (execStmt_eventually prog 3). reflexivity.
  - unfold SumGroupedFor.
    apply execStmt_For_true
      with (env1 := ("tmpn", VInt (Z.of_nat (S m) - 1)%Z)
                    :: sumFrame (Z.of_nat (S m) - 1)%Z acc).
    + apply (evalExpr_eventually prog 3). reflexivity.
    + apply (execStmts_eventually prog 10). reflexivity.
    + replace (leaveBlock _ _) with (sumFrame (Z.of_nat m) acc).
      * apply IH.
      * unfold leaveBlock, sumFrame. cbn [length skipn Nat.sub].
        repeat f_equal. lia.
Qed.

Lemma SumGroupedLoop_runs (prog : list FuncDecl) (t : Expr) (m : nat) (acc : Z) :
  eventually
    (fun fuel => callFunc prog fuel (SumGroupedLoop t) [VInt (Z.of_nat m); VInt acc])
    [VInt acc].
Proof.
  apply callFunc_eventually
    with (body := [SumGroupedFor; ReturnStmt [Ident "acc"]])
         (env := sumFrame (Z.of_nat m) acc);
    try reflexivity.
  eapply execStmts_cons_Next; [apply SumGroupedFor_runs|].
  apply (execStmts_eventually prog 5). reflexivity.
Qed.

(** C1 (the code at an input of the claim).  Declared with one field per
    parameter, [func Sum(n int, acc int)], [Sum] is rewritten into the
    loop form and both forms return [n0 * (n0 + 1) / 2] on [(n0, 0)].
    Declared with one field, [func Sum(n, acc int)], it is rewritten into
    a loop that stages [n] alone: the original function returns
    [n0 * (n0 + 1) / 2] and the rewritten one returns [0], so that they
    differ for every [n0 >= 1].  All results are reached from some amount
    of fuel on. *)
Theorem C1_sum_one_field_differs :
  (forall tn tacc : Expr,
      rewriteFunc (Sum tn tacc) = Ok (SumLoop tn tacc) /\
      forall n0 : Z,
        (0 <= n0)%Z ->
        eventually
          (fun fuel => callFunc [SumLoop tn tacc] fuel (SumLoop tn tacc)
                         [VInt n0; VInt 0])
          [VInt (n0 * (n0 + 1) / 2)%Z] /\
        eventually
          (fun fuel => callFunc [Sum tn tacc] fuel (Sum tn tacc)
                         [VInt n0; VInt 0])
          [VInt (n0 * (n0 + 1) / 2)%Z]) /\
  (forall t : Expr,
      rewriteFunc (SumGrouped t) = Ok (SumGroupedLoop t) /\
      forall n0 : Z,
        (0 <= n0)%Z ->
        eventually
          (fun fuel => callFunc [SumGrouped t] fuel (SumGrouped t)
                         [VInt n0; VInt 0])
          [VInt (n0 * (n0 + 1) / 2)%Z] /\
        eventually
          (fun fuel => callFunc [SumGroupedLoop t] fuel (SumGroupedLoop t)
                         [VInt n0; VInt 0])
          [VInt 0] /\
        ((1 <= n0)%Z -> (n0 * (n0 + 1) / 2 <> 0)%Z)).
Proof.
  split.
  - intros tn tacc. split; [reflexivity|].
    intros n0 Hn0. rewrite <- (Z2Nat.id n0 Hn0).
    change (Z.of_nat (Z.to_nat n0) * (Z.of_nat (Z.to_nat n0) + 1) / 2)%Z
      with (0 + triangle (Z.of_nat (Z.to_nat n0)))%Z.
    split.
    + apply SumLoop_runs.
    + now apply Sum_runs.
  - intros t. split; [reflexivity|].
    intros n0 Hn0. split; [|split].
    + rewrite <- (Z2Nat.id n0 Hn0).
      change (Z.of_nat (Z.to_nat n0) * (Z.of_nat (Z.to_nat n0) + 1) / 2)%Z
        with (0 + triangle (Z.of_nat (Z.to_nat n0)))%Z.
      now apply SumGrouped_runs.
    + rewrite <- (Z2Nat.id n0 Hn0). apply SumGroupedLoop_runs.
    + intros H1 Hz.
      assert (Hle : (n0 * 1 <= n0 * (n0 + 1) / 2)%Z).
      { apply Z.div_le_lower_bound; [lia|]. nia. }
      lia.
Qed.

(** C1 at [n0 = 3]: [func Sum(n, acc int)] returns 6 on [(3, 0)] and
    its rewritten form returns 0. *)
Lemma C1_sum_one_field_differs_witness :
  eventually
    (fun fuel => callFunc [SumGrouped (Ident "int")] fuel
                   (SumGrouped (Ident "int")) [VInt 3; VInt 0])
    [VInt (3 * (3 + 1) / 2)%Z] /\
  eventually
    (fun fuel => callFunc [SumGroupedLoop (Ident "int")] fuel
                   (SumGroupedLoop (Ident "int")) [VInt 3; VInt 0])
    [VInt 0] /\
  ((1 <= 3)%Z -> (3 * (3 + 1) / 2 <> 0)%Z).
Proof.
  apply (proj2 (proj2 C1_sum_one_field_differs (Ident "int")) 3%Z).
  lia.
Defined.

(** ** The swap scenario *)

Lemma swapped_succ (k : nat) (x y : Z) :
  swapped (S k) (x, y) = swapped k (y, x).
Proof. unfold swapped. now rewrite Nat.iter_succ_r. Qed.

Section SwapRuns.
Variable prog : list FuncDecl.
Variables ta tb : Expr.

(** One turn of the rewritten loop body exchanges [a] and [b]. *)
Lemma SwapStaging_runs (x y : Z) :
  execStmts prog 10 (swapFrame x y) SwapStaging =
  Some (Next (("tmpb", VInt x) :: ("tmpa", VInt y) :: swapFrame y x)).
Proof. reflexivity. Qed.

Lemma loopTurns_swap (k : nat) :
  forall x y,
    eventually (fun fuel => loopTurns prog SwapStaging k fuel (swapFrame x y))
               (swapFrame (fst (swapped k (x, y))) (snd (swapped k (x, y)))).
Proof.
  induction k as [|k IH]; intros x y.
  - exists 0. reflexivity.
  - destruct (IH y x) as [f1 H1]. exists (Nat.max 10 f1).
    intros fuel Hle. simpl loopTurns.
    rewrite (execStmts_mono prog 10 fuel _ _ _ (SwapStaging_runs x y)) by lia.
    rewrite swapped_succ. apply H1. lia.
Qed.

(** The call [F(b, a)] made from a frame binds the exchanged values. *)
Lemma callFrames_swap (k : nat) :
  forall x y,
    eventually (fun fuel =>
       callFrames prog (Swap ta tb) [Ident "b"; Ident "a"] k fuel (swapFrame x y))
       (swapFrame (fst (swapped k (x, y))) (snd (swapped k (x, y)))).
Proof.
  induction k as [|k IH]; intros x y.
  - exists 0. reflexivity.
  - destruct (IH y x) as [f1 H1]. exists (Nat.max 5 f1).
    intros fuel Hle. simpl callFrames. unfold callFrame.
    assert (Hargs : evalExprs prog 5 (swapFrame x y) [Ident "b"; Ident "a"]
                    = Some [VInt y; VInt x]) by reflexivity.
    rewrite (evalExprs_mono prog 5 fuel _ _ _ Hargs) by lia.
    simpl bindParams.
    rewrite swapped_succ. apply H1. lia.
Qed.
End SwapRuns.

Section SwapResults.
Variable prog : list FuncDecl.
Variables ta tb : Expr.
Hypothesis Hfind : findFunc "F" prog = Some (Swap ta tb).

Lemma nonZero_true (x y : Z) :
  x <> 0%Z ->
  evalExpr prog 3 (swapFrame x y) (nonZero "a") = Some (VBool true).
Proof. intros Hx. simpl. now rewrite (proj2 (Z.eqb_neq x 0) Hx). Qed.

Lemma isZero_false (x y : Z) :
  x <> 0%Z ->
  evalExpr prog 3 (swapFrame x y) (isZero "a") = Some (VBool false).
Proof. intros Hx. simpl. now rewrite (proj2 (Z.eqb_neq x 0) Hx). Qed.

Lemma guard_false (x y : Z) :
  x <> 0%Z ->
  execStmt prog 4 (swapFrame x y) (guard (isZero "a") [ReturnStmt [Ident "b"]]) =
  Some (Next (swapFrame x y)).
Proof.
  intros Hx. unfold guard.
  change (execStmt prog 4 (swapFrame x y)
            (IfStmt None (isZero "a") [ReturnStmt [Ident "b"]] None))
    with (match evalExpr prog 3 (swapFrame x y) (isZero "a") with
          | Some (VBool true) =>
              match execStmts prog 3 (swapFrame x y) [ReturnStmt [Ident "b"]] with
              | Some r => Some (leave (swapFrame x y) r)
              | None => None
              end
          | Some (VBool false) =>
              Some (Next (leaveBlock (swapFrame x y) (swapFrame x y)))
          | _ => None
          end).
  now rewrite isZero_false.
Qed.

(** The rewritten function. *)
Lemma SwapLoop_returns_b (y : Z) :
  eventually (fun fuel => callFunc prog fuel (SwapLoop ta tb) [VInt 0; VInt y])
             [VInt y].
Proof.
  apply callFunc_eventually with (body := SwapLoopBody) (env := swapFrame 0 y);
    try reflexivity.
  apply (execStmts_eventually prog 6). reflexivity.
Qed.

Lemma SwapLoop_returns_a (x : Z) :
  x <> 0%Z ->
  eventually (fun fuel => callFunc prog fuel (SwapLoop ta tb) [VInt x; VInt 0])
             [VInt x].
Proof.
  intros Hx.
  apply callFunc_eventually with (body := SwapLoopBody) (env := swapFrame x 0);
    try reflexivity.
  apply execStmts_cons_Next with (env' := swapFrame 0 x).
  - eapply execStmt_For_true.
    + apply (evalExpr_eventually prog 3). now apply nonZero_true.
    + apply (execStmts_eventually prog 10). apply SwapStaging_runs.
    + apply (execStmt_eventually prog 4). reflexivity.
  - apply (execStmts_eventually prog 5). reflexivity.
Qed.

Lemma SwapFor_diverges (fuel : nat) :
  forall x y,
    x <> 0%Z -> y <> 0%Z ->
    execStmt prog fuel (swapFrame x y) SwapFor = None.
Proof.
  induction fuel as [|fuel IH]; intros x y Hx Hy; [reflexivity|].
  unfold SwapFor. simpl execStmt.
  destruct (evalExpr prog fuel (swapFrame x y) (nonZero "a")) as [v|] eqn:Hc;
    [|reflexivity].
  apply (evalExpr_agrees prog 3 fuel _ _ _ _ (nonZero_true x y Hx)) in Hc.
  subst v.
  destruct (execStmts prog fuel (swapFrame x y) SwapStaging) as [r|] eqn:Hb;
    [|reflexivity].
  apply (execStmts_agrees prog 10 fuel _ _ _ _ (SwapStaging_runs prog x y)) in Hb.
  subst r. simpl leave. apply (IH y x Hy Hx).
Qed.

Lemma SwapLoop_diverges (x y : Z) :
  x <> 0%Z -> y <> 0%Z ->
  forall fuel, callFunc prog fuel (SwapLoop ta tb) [VInt x; VInt y] = None.
Proof.
  intros Hx Hy [|[|fuel]]; try reflexivity.
  simpl callFunc. simpl bindParams.
  change (execStmts prog (S fuel) _ SwapLoopBody)
    with (match execStmt prog fuel (swapFrame x y) SwapFor with
          | Some (Ret vs) => Some (Ret vs)
          | Some (Next env') => execStmts prog fuel env' [ReturnStmt [Ident "b"]]
          | None => None
          end).
  change (declare "b" (VInt y) (declare "a" (VInt x) [])) with (swapFrame x y).
  now rewrite SwapFor_diverges.
Qed.

(** The original function. *)
Lemma Swap_returns_b (y : Z) :
  eventually (fun fuel => callFunc prog fuel (Swap ta tb) [VInt 0; VInt y])
             [VInt y].
Proof.
  apply callFunc_eventually with (body := SwapBody) (env := swapFrame 0 y);
    try reflexivity.
  apply (execStmts_eventually prog 6). reflexivity.
Qed.

Lemma Swap_returns_a (x : Z) :
  x <> 0%Z ->
  eventually (fun fuel => callFunc prog fuel (Swap ta tb) [VInt x; VInt 0])
             [VInt x].
Proof.
  intros Hx.
  apply callFunc_eventually with (body := SwapBody) (env := swapFrame x 0);
    try reflexivity.
  apply execStmts_cons_Next with (env' := swapFrame x 0).
  - apply (execStmt_eventually prog 4). now apply guard_false.
  - apply execStmts_cons_Ret.
    apply execStmt_return_call
      with (fn := Swap ta tb) (vs := [VInt 0; VInt x]).
    + apply (evalExprs_eventually prog 5). reflexivity.
    + exact Hfind.
    + apply Swap_returns_b.
Qed.

Lemma Swap_diverges (fuel : nat) :
  forall x y,
    x <> 0%Z -> y <> 0%Z ->
    callFunc prog fuel (Swap ta tb) [VInt x; VInt y] = None.
Proof.
  induction fuel as [fuel IH] using lt_wf_ind. intros x y Hx Hy.
  destruct fuel as [|[|[|[|[|[|fuel]]]]]]; try reflexivity.
  all: simpl callFunc; simpl bindParams;
    change (declare "b" (VInt y) (declare "a" (VInt x) [])) with (swapFrame x y).
  all: unfold SwapBody; simpl execStmts.
  all: rewrite ?(proj2 (Z.eqb_neq x 0) Hx); simpl; try reflexivity.
  change (leaveBlock (swapFrame x y) (swapFrame x y)) with (swapFrame x y).
  destruct (evalExprs prog fuel (swapFrame x y) [Ident "b"; Ident "a"])
    as [vs|] eqn:Hargs; [|reflexivity].
  assert (H5 : evalExprs prog 5 (swapFrame x y) [Ident "b"; Ident "a"]
               = Some [VInt y; VInt x]) by reflexivity.
  apply (evalExprs_agrees prog 5 fuel _ _ _ _ H5) in Hargs. subst vs.
  rewrite Hfind. rewrite (IH fuel) by (assumption || lia). reflexivity.
Qed.
End SwapResults.

(** ** More on findTailRecursionReturn *)

(** Once the closure has faulted nothing is inspected any more. *)
Lemma InspectStmt_Panic (fnName msg : string) (s : Stmt) :
  InspectStmt (visit fnName) s (Panic msg) = Panic msg.
Proof. destruct s; reflexivity. Qed.

Lemma walkList_Panic (fnName msg : string) (l : list Stmt) :
  fold_left (fun st x => InspectStmt (visit fnName) x st) l (Panic msg) = Panic msg.
Proof.
  induction l as [|s l IH]; simpl; [reflexivity|].
  now rewrite InspectStmt_Panic.
Qed.

Lemma InspectExpr_Panic (fnName msg : string) (e : Expr) :
  InspectExpr (visit fnName) e (Panic msg) = Panic msg.
Proof. destruct e; reflexivity. Qed.

Lemma walkList_outcome (fnName : string) (l : list Stmt) :
  list_all Stmt (faults fnName) l ->
  forall cur,
    fold_left (fun st x => InspectStmt (visit fnName) x st) l (Ok cur) =
    if forallb parsed l
    then Ok (lastFound cur (flat_map (selfCallReturns fnName) l))
    else Panic "nil pointer dereference".
Proof.
  induction 1 as [|s Hs l Hl IH]; intros cur; simpl; [reflexivity|].
  destruct (parsed s) eqn:Hps; simpl.
  - rewrite (InspectStmt_visit fnName s Hps), IH.
    destruct (forallb parsed l); [|reflexivity]. now rewrite lastFound_app.
  - rewrite (Hs Hps). apply walkList_Panic.
Qed.

Lemma walkOpt_outcome (fnName : string) (o : option Stmt) :
  option_all Stmt (faults fnName) o ->
  forall cur,
    match o with
    | Some x => InspectStmt (visit fnName) x (Ok cur)
    | None => Ok cur
    end =
    if match o with Some x => parsed x | None => true end
    then Ok (lastFound cur match o with
                           | Some x => selfCallReturns fnName x
                           | None => []
                           end)
    else Panic "nil pointer dereference".
Proof.
  intros [x Hx|] cur; [|reflexivity].
  destruct (parsed x) eqn:Hp; [now apply InspectStmt_visit | now apply Hx].
Qed.

Lemma walkOpt_Panic (fnName msg : string) (o : option Stmt) :
  match o with
  | Some x => InspectStmt (visit fnName) x (Panic msg)
  | None => Panic msg
  end = Panic msg.
Proof. destruct o; [apply InspectStmt_Panic | reflexivity]. Qed.

Lemma InspectStmt_nil (fnName : string) (s : Stmt) : faults fnName s.
Proof.
  induction s as [List IHList
                 |Init IHInit Cond Body IHBody Else IHElse
                 |Init IHInit Cond Post IHPost Body IHBody
                 |Results|Lhs Tok Rhs|X|text| ]; intros Hp cur;
    try discriminate; try reflexivity.
  - simpl in *. now rewrite walkList_outcome, Hp.
  - simpl in *. rewrite (walkOpt_outcome fnName Init IHInit).
    destruct (match Init with Some x => parsed x | None => true end);
      simpl in *.
    + rewrite InspectExpr_visit. simpl.
      rewrite (walkList_outcome fnName Body IHBody).
      destruct (forallb parsed Body); simpl in *.
      * rewrite (walkOpt_outcome fnName Else IHElse). now rewrite Hp.
      * destruct Else as [e|]; [destruct e|]; reflexivity.
    + rewrite InspectExpr_Panic. simpl.
      destruct Else as [e|]; [destruct e|]; reflexivity.
  - simpl in *. rewrite (walkOpt_outcome fnName Init IHInit).
    destruct (match Init with Some x => parsed x | None => true end);
      simpl in *.
    + replace (InspectOptExpr (visit fnName) Cond (Ok (lastFound cur
                 match Init with Some x => selfCallReturns fnName x | None => [] end)))
        with (Ok (A:=found) (lastFound cur
                 match Init with Some x => selfCallReturns fnName x | None => [] end))
        by (destruct Cond; simpl; now rewrite ?InspectExpr_visit).
      rewrite (walkOpt_outcome fnName Post IHPost).
      destruct (match Post with Some x => parsed x | None => true end);
        simpl in *.
      * rewrite (walkList_outcome fnName Body IHBody). now rewrite Hp.
      * reflexivity.
    + replace (InspectOptExpr (visit fnName) Cond (Panic "nil pointer dereference"))
        with (Panic (A:=found) "nil pointer dereference")
        by (destruct Cond as [c|]; [destruct c|]; reflexivity).
      destruct Post as [p|]; [destruct p|]; reflexivity.
Qed.

(** The detector on every body. *)
Lemma findTailRecursionReturn_spec (fnName : string) (body : list Stmt) :
  findTailRecursionReturn fnName body =
  if forallb parsed body
  then Ok (lastFound notFound (flat_map (selfCallReturns fnName) body))
  else Panic "nil pointer dereference".
Proof.
  unfold findTailRecursionReturn.
  destruct (forallb parsed body) eqn:Hp.
  - now rewrite (InspectStmt_visit fnName (BlockStmt body) Hp).
  - now rewrite (InspectStmt_nil fnName (BlockStmt body) Hp).
Qed.

(** X1.  On every body in which no uninterpreted node hides a Return,
    the detector either faults, exactly when a nil statement lies
    somewhere in the body, or reports the last self-call Return in the
    order of the walk (none when there is none). *)
Theorem findTailRecursionReturn_outcome :
  forall (fnName : string) (body : list Stmt),
    noHiddenReturn body ->
    (forallb parsed body = true /\
     findTailRecursionReturn fnName body =
       Ok (lastFound notFound (flat_map (selfCallReturns fnName) body))) \/
    (forallb parsed body = false /\
     findTailRecursionReturn fnName body = Panic "nil pointer dereference").
Proof.
  intros fnName body _. rewrite findTailRecursionReturn_spec.
  destruct (forallb parsed body); auto.
Qed.

(** X1 at a body that counts up before its self-call Return:
    [i++; return F(i)]. *)
Lemma findTailRecursionReturn_outcome_witness :
  (forallb parsed [OtherStmt "i++"; returnCall "F" [Ident "i"]] = true /\
   findTailRecursionReturn "F" [OtherStmt "i++"; returnCall "F" [Ident "i"]] =
     Ok (lastFound notFound
           (flat_map (selfCallReturns "F")
              [OtherStmt "i++"; returnCall "F" [Ident "i"]]))) \/
  (forallb parsed [OtherStmt "i++"; returnCall "F" [Ident "i"]] = false /\
   findTailRecursionReturn "F" [OtherStmt "i++"; returnCall "F" [Ident "i"]] =
     Panic "nil pointer dereference").
Proof.
  apply (findTailRecursionReturn_outcome "F"
           [OtherStmt "i++"; returnCall "F" [Ident "i"]]).
  intros text [<-|[]]. reflexivity.
Defined.

Lemma list_all_In {A : Type} (P : A -> Prop) (l : list A) :
  list_all A P l -> forall x, In x l -> P x.
Proof.
  induction 1 as [|a Ha l Hl IH]; intros x Hx; simpl in Hx; [contradiction|].
  destruct Hx as [<-|Hx]; auto.
Qed.

(** Every Return listed under a statement is a self-call Return. *)
Lemma selfCallReturns_sound (fnName : string) (s : Stmt) :
  forall ret, In ret (selfCallReturns fnName s) -> selfCallReturn fnName ret = true.
Proof.
  induction s as [List IHList
                 |Init IHInit Cond Body IHBody Else IHElse
                 |Init IHInit Cond Post IHPost Body IHBody
                 |Results|Lhs Tok Rhs|X|text| ]; intros ret Hret;
    cbn [selfCallReturns] in Hret; try contradiction.
  - apply in_flat_map in Hret as (x & Hx & Hret).
    exact (list_all_In _ _ IHList x Hx ret Hret).
  - apply in_app_or in Hret as [Hret|Hret];
      [|apply in_app_or in Hret as [Hret|Hret]].
    + destruct IHInit as [i Hi|]; [now apply Hi | destruct Hret].
    + apply in_flat_map in Hret as (x & Hx & Hret).
      exact (list_all_In _ _ IHBody x Hx ret Hret).
    + destruct IHElse as [e He|]; [now apply He | destruct Hret].
  - apply in_app_or in Hret as [Hret|Hret];
      [|apply in_app_or in Hret as [Hret|Hret]].
    + destruct IHInit as [i Hi|]; [now apply Hi | destruct Hret].
    + destruct IHPost as [p Hp|]; [now apply Hp | destruct Hret].
    + apply in_flat_map in Hret as (x & Hx & Hret).
      exact (list_all_In _ _ IHBody x Hx ret Hret).
  - destruct (selfCallReturn fnName (ReturnStmt Results)) eqn:Hself;
      [|contradiction].
    destruct Hret as [<-|[]]. exact Hself.
Qed.

Lemma selfCallReturn_shape (fnName : string) (ret : Stmt) :
  selfCallReturn fnName ret = true ->
  exists args, ret = ReturnStmt [CallExpr (Ident fnName) args].
Proof.
  unfold selfCallReturn.
  destruct ret as [ | | |Results| | | | ]; try discriminate.
  destruct Results as [|r [|]]; try discriminate.
  - destruct r as [ | | |Fun Args| | ]; try discriminate.
    destruct Fun as [funName| | | | | ]; try discriminate.
    intros H. apply String.eqb_eq in H. subst funName. now exists Args.
  - destruct r as [ | | |Fun Args| | ]; try discriminate.
    destruct Fun; discriminate.
Qed.

(** What the closure holds after a list of Returns: what it held before,
    or the last of them. *)
Lemma lastFound_cases (cur : found) (rets : list Stmt) :
  (rets = [] /\ lastFound cur rets = cur) \/
  (exists ret, In ret rets /\ lastFound cur rets = foundOf ret).
Proof.
  destruct rets as [|r rets] using rev_ind.
  - now left.
  - right. exists r. split; [apply in_or_app; right; now left|].
    rewrite lastFound_app. reflexivity.
Qed.

(** X2.  What the detector reports is a Return of the body whose single
    result is a call of the function by its own name, together with that
    call: the two results are set, or left unset, together. *)
Theorem findTailRecursionReturn_sound :
  forall (fnName : string) (body : list Stmt) (r : found),
    findTailRecursionReturn fnName body = Ok r ->
    (tailReturn r = None /\ call r = None) \/
    (exists args,
        tailReturn r = Some (ReturnStmt [CallExpr (Ident fnName) args]) /\
        call r = Some (CallExpr (Ident fnName) args) /\
        In (ReturnStmt [CallExpr (Ident fnName) args])
           (flat_map (selfCallReturns fnName) body)).
Proof.
  intros fnName body r. rewrite findTailRecursionReturn_spec.
  destruct (forallb parsed body); [|discriminate].
  intros H. injection H as <-.
  destruct (lastFound_cases notFound (flat_map (selfCallReturns fnName) body))
    as [[_ ->]|(ret & Hin & ->)].
  - now left.
  - right.
    assert (Hself : selfCallReturn fnName ret = true).
    { apply in_flat_map in Hin as (s & _ & Hs).
      now apply (selfCallReturns_sound fnName s). }
    apply selfCallReturn_shape in Hself as (args & ->).
    exists args. repeat split. exact Hin.
Qed.

(** X2 at [Sum]. *)
Lemma findTailRecursionReturn_sound_witness :
  (tailReturn (foundOf (returnCall "Sum"
      [minus1 "n"; BinaryExpr (Ident "acc") token.ADD (Ident "n")])) = None /\
   call (foundOf (returnCall "Sum"
      [minus1 "n"; BinaryExpr (Ident "acc") token.ADD (Ident "n")])) = None) \/
  (exists args,
      tailReturn (foundOf (returnCall "Sum"
        [minus1 "n"; BinaryExpr (Ident "acc") token.ADD (Ident "n")])) =
        Some (ReturnStmt [CallExpr (Ident "Sum") args]) /\
      call (foundOf (returnCall "Sum"
        [minus1 "n"; BinaryExpr (Ident "acc") token.ADD (Ident "n")])) =
        Some (CallExpr (Ident "Sum") args) /\
      In (ReturnStmt [CallExpr (Ident "Sum") args])
         (flat_map (selfCallReturns "Sum") SumBody)).
Proof.
  apply (findTailRecursionReturn_sound "Sum" SumBody). reflexivity.
Defined.

(** X3.  On a body without nil statement in which no uninterpreted node
    hides a Return, the detector reports nothing exactly when no self-call
    Return occurs in the body, at any depth of its blocks, conditionals
    and loops. *)
Theorem findTailRecursionReturn_complete :
  forall (fnName : string) (body : list Stmt),
    forallb parsed body = true ->
    noHiddenReturn body ->
    (findTailRecursionReturn fnName body = Ok notFound <->
     flat_map (selfCallReturns fnName) body = []).
Proof.
  intros fnName body Hp _. rewrite findTailRecursionReturn_spec, Hp.
  split.
  - intros H. injection H as H.
    destruct (lastFound_cases notFound (flat_map (selfCallReturns fnName) body))
      as [[Hnil _]|(ret & _ & Hlast)]; [assumption|].
    rewrite Hlast in H. discriminate.
  - now intros ->.
Qed.

(** X3 at a body whose only call is to another function. *)
Lemma findTailRecursionReturn_complete_witness :
  findTailRecursionReturn "Sum" LogBody = Ok notFound <->
  flat_map (selfCallReturns "Sum") LogBody = [].
Proof.
  apply (findTailRecursionReturn_complete "Sum" LogBody).
  - reflexivity.
  - intros text [].
Defined.

(** ** More on makeAssignStmts *)

Lemma argsCover_more (n n' : nat) (params : list Field) :
  forall i,
    n <= n' -> argsCover n i params = true -> argsCover n' i params = true.
Proof.
  induction params as [|p rest IH]; intros i Hle H; simpl in *; [reflexivity|].
  apply andb_prop in H as [Hp Hrest]. rewrite (IH (S i) Hle Hrest).
  destruct (named p); simpl in *; [|reflexivity].
  apply Nat.ltb_lt in Hp. rewrite andb_true_r. apply Nat.ltb_lt. lia.
Qed.

Lemma combine_app_l {A B : Type} (l : list A) (a b : list B) :
  length l <= length a -> combine l (a ++ b) = combine l a.
Proof.
  revert a. induction l as [|x l IH]; intros [|y a] Hle; simpl in *;
    try reflexivity; try lia.
  f_equal. apply IH. lia.
Qed.

(** X4.  Arguments beyond the named fields do not matter: when the
    staging succeeds on an argument list it gives the same statements on
    any longer one. *)
Theorem makeAssignStmts_excess_arguments :
  forall (params : list Field) (args more : list Expr) (stmts : list Stmt),
    makeAssignStmts params args = Ok stmts ->
    makeAssignStmts params (args ++ more) = Ok stmts.
Proof.
  intros params args more stmts H.
  pose proof (makeAssignStmts_covers _ _ _ H) as Hlen.
  pose proof (makeAssignStmts_Ok _ _ _ H) as ->.
  rewrite makeAssignStmts_spec in *.
  destruct (argsCover (length args) 0 params) eqn:Hcover; [|discriminate].
  destruct (unnamedLast params) eqn:Hlast; [|discriminate].
  rewrite (argsCover_more (length args) (length (args ++ more)) params 0)
    by (try assumption; rewrite length_app; lia).
  simpl. unfold staged. now rewrite combine_app_l.
Qed.

(** X4 at the parameters of [Sum] and one argument too many. *)
Lemma makeAssignStmts_excess_arguments_witness :
  makeAssignStmts (Params (Sum (Ident "int") (Ident "int")))
    ([minus1 "n"; Ident "acc"] ++ [BasicLit 7]) =
  Ok [ define "tmpn" (minus1 "n");
       define "tmpacc" (Ident "acc");
       AssignStmt [Ident "n"; Ident "acc"] token.ASSIGN
                  [Ident "tmpn"; Ident "tmpacc"] ].
Proof.
  apply (makeAssignStmts_excess_arguments
           (Params (Sum (Ident "int") (Ident "int")))
           [minus1 "n"; Ident "acc"] [BasicLit 7]).
  reflexivity.
Defined.

(** X5.  The staging faults, with an index out of range, exactly when a
    named field stands at a position that has no argument or after a
    field without a name; in every other case it returns the staging
    statements. *)
Theorem makeAssignStmts_outcome :
  forall (params : list Field) (args : list Expr),
    (argsCover (length args) 0 params = true /\
     unnamedLast params = true /\
     makeAssignStmts params args = Ok (staged params args)) \/
    ((argsCover (length args) 0 params = false \/ unnamedLast params = false) /\
     makeAssignStmts params args = Panic "index out of range").
Proof.
  intros params args. rewrite makeAssignStmts_spec.
  destruct (argsCover (length args) 0 params), (unnamedLast params); simpl; auto.
Qed.

(** ** More on the loop of main *)

(** X6.  A function whose body holds no nil statement is returned as it
    is when its first statement is no conditional, and also when no
    self-call Return occurs in its body and no uninterpreted node of the
    body hides a Return. *)
Theorem rewriteFunc_passthrough :
  forall (fn : FuncDecl) (body : list Stmt),
    Body fn = Some body ->
    forallb parsed body = true ->
    (flat_map (selfCallReturns (Name fn)) body = [] /\ noHiddenReturn body) \/
    (forall init cond thenBranch els tl,
        body <> IfStmt init cond thenBranch els :: tl) ->
    rewriteFunc fn = Ok fn.
Proof.
  intros fn body Hbody Hp [[Hnone _]|Hshape].
  - apply (rewriteFunc_not_found fn body Hbody).
    now apply findTailRecursionReturn_none.
  - apply (rewriteFunc_no_guard fn body
             (lastFound notFound (flat_map (selfCallReturns (Name fn)) body))
             Hbody).
    + now apply findTailRecursionReturn_last.
    + destruct body as [|[ ] tl]; try exact I.
      now destruct (Hshape Init Cond Body0 Else tl).
Qed.

(** X6 at the body of the rewritten [Sum], which starts with a loop. *)
Lemma rewriteFunc_passthrough_witness :
  rewriteFunc (SumLoop (Ident "int") (Ident "int")) =
  Ok (SumLoop (Ident "int") (Ident "int")).
Proof.
  apply (rewriteFunc_passthrough (SumLoop (Ident "int") (Ident "int")) SumLoopBody).
  - reflexivity.
  - reflexivity.
  - right. discriminate.
Defined.

(** X8.  Running the loop of main on its own output changes nothing,
    as long as that output holds no nil statement: a rewritten body
    starts with a loop, not with a conditional. *)
Theorem rewriteFunc_idempotent :
  forall fn fn' : FuncDecl,
    rewriteFunc fn = Ok fn' ->
    (forall body', Body fn' = Some body' -> forallb parsed body' = true) ->
    rewriteFunc fn' = Ok fn'.
Proof.
  intros fn fn' Hrw Hp. pose proof Hrw as Hrw0. unfold rewriteFunc in Hrw.
  destruct (Body fn) as [body|] eqn:Hbody.
  - destruct (rewriteBody fn body) as [[l|]|] eqn:Hbodyrw; simpl in Hrw;
      try discriminate.
    + injection Hrw as <-.
      apply rewriteBody_Some in Hbodyrw
        as (ret & callee & callArgs & init & cond & thenBranch & els & tl
            & _ & _ & _ & ->).
      eapply rewriteFunc_no_guard; [reflexivity | | exact I].
      apply findTailRecursionReturn_last. now apply Hp.
    + now injection Hrw as <-.
  - now injection Hrw as <-.
Qed.

(** X8 at [Sum]. *)
Lemma rewriteFunc_idempotent_witness :
  rewriteFunc (SumLoop (Ident "int") (Ident "int")) =
  Ok (SumLoop (Ident "int") (Ident "int")).
Proof.
  apply (rewriteFunc_idempotent (Sum (Ident "int") (Ident "int"))).
  - reflexivity.
  - intros body' H. injection H as <-. reflexivity.
Defined.

(** X9.  When the then-branch of the guard does not start with a Return
    the body written by the loop of main ends with a nil statement, and
    running the loop of main on any function with that body faults in
    the detector. *)
Theorem rewriteFunc_nil_return_faults :
  forall (fn : FuncDecl) (init : option Stmt) (cond : Expr)
         (thenBranch : list Stmt) (els : option Stmt) (tl l : list Stmt),
    rewriteBody fn (IfStmt init cond thenBranch els :: tl) = Ok (Some l) ->
    (forall results more, thenBranch <> ReturnStmt results :: more) ->
    In NilReturnStmt l /\
    forall g : FuncDecl,
      Body g = Some l -> rewriteFunc g = Panic "nil pointer dereference".
Proof.
  intros fn init cond thenBranch els tl l Hrw Hthen.
  apply rewriteBody_Some in Hrw
    as (ret & callee & callArgs & init' & cond' & thenBranch' & els' & tl'
        & _ & Hbody & _ & ->).
  injection Hbody as <- <- <- <- <-.
  assert (Hnil : baseReturn thenBranch = NilReturnStmt).
  { destruct thenBranch as [|[ ] more]; try reflexivity.
    now destruct (Hthen Results more). }
  rewrite Hnil. split; [simpl; auto|].
  intros g Hg. unfold rewriteFunc, rewriteBody. rewrite Hg.
  rewrite findTailRecursionReturn_spec.
  replace (forallb parsed _) with false; [reflexivity|].
  simpl. now rewrite andb_false_r.
Qed.

(** X9 at [Log]. *)
Lemma rewriteFunc_nil_return_faults_witness :
  In NilReturnStmt
     [ ForStmt None (Some (nonZero "n")) None
         [ define "tmpn" (minus1 "n");
           AssignStmt [Ident "n"] token.ASSIGN [Ident "tmpn"] ];
       NilReturnStmt ] /\
  forall g : FuncDecl,
    Body g = Some
      [ ForStmt None (Some (nonZero "n")) None
          [ define "tmpn" (minus1 "n");
            AssignStmt [Ident "n"] token.ASSIGN [Ident "tmpn"] ];
        NilReturnStmt ] ->
    rewriteFunc g = Panic "nil pointer dereference".
Proof.
  apply (rewriteFunc_nil_return_faults Log None (isZero "n")
           [ ExprStmt (CallExpr (Ident "report") [Ident "n"]);
             ReturnStmt [Ident "n"] ]
           None [returnCall "Log" [minus1 "n"]]).
  - reflexivity.
  - discriminate.
Defined.

(** X12.  Deriving the loop condition twice gives the guard condition
    back. *)
Theorem loopCond_involutive :
  forall cond : Expr, loopCond (loopCond cond) = cond.
Proof.
  intros cond. destruct cond as [ | |X Op Y| | | ]; try reflexivity.
  destruct Op; reflexivity.
Qed.

(** X13.  For a guard comparing by [==] or [!=] the loop condition
    evaluates, with the same fuel and in the same frame, to the negation
    of the guard; for a guard comparing by any other operator it
    evaluates to the value of the guard itself. *)
Theorem loopCond_value :
  forall (prog : list FuncDecl) (fuel : nat) (env : Env) (X Y : Expr)
         (Op : token.Token),
    evalExpr prog fuel env (loopCond (BinaryExpr X Op Y)) =
    match Op with
    | token.EQL | token.NEQ =>
        option_map negateValue (evalExpr prog fuel env (BinaryExpr X Op Y))
    | _ => evalExpr prog fuel env (BinaryExpr X Op Y)
    end.
Proof.
  intros prog fuel env X Y Op.
  destruct Op; try reflexivity; destruct fuel as [|fuel]; try reflexivity;
    simpl;
    destruct (evalExpr prog fuel env X) as [[x|x]|]; try reflexivity;
    destruct (evalExpr prog fuel env Y) as [[y|y]|]; try reflexivity;
    simpl; now rewrite ?negb_involutive.
Qed.




(** ** The staging statements as a simultaneous assignment *)

Section Staging.
Variable prog : list FuncDecl.

(** A variable that an expression does not mention does not matter to
    its value. *)
Lemma evalExpr_fresh (x : string) (v : Value) :
  forall fuel,
    (forall pre env e,
        ~ In x (identsExpr e) ->
        evalExpr prog fuel (pre ++ (x, v) :: env) e =
        evalExpr prog fuel (pre ++ env) e) /\
    (forall pre env l,
        ~ In x (flat_map identsExpr l) ->
        evalExprs prog fuel (pre ++ (x, v) :: env) l =
        evalExprs prog fuel (pre ++ env) l).
Proof.
  induction fuel as [|fuel [IHe IHes]]; [split; reflexivity|].
  split.
  - intros pre env e Hx.
    destruct e as [y|z|X Op Y|Fun Args|X Sel|text]; simpl in *;
      try reflexivity.
    + induction pre as [|[k w] pre IH]; simpl.
      * destruct (String.eqb_spec y x) as [->|Hne]; [|reflexivity].
        exfalso. apply Hx. now left.
      * now rewrite IH.
    + rewrite !IHe; [reflexivity| |]; intros H; apply Hx, in_or_app; auto.
    + destruct Fun as [f| | | | | ]; try reflexivity.
      rewrite IHes; [reflexivity|].
      intros H. apply Hx. simpl. now right.
  - intros pre env l Hx. destruct l as [|e l]; simpl in *; [reflexivity|].
    rewrite IHe, IHes; [reflexivity| |]; intros H; apply Hx, in_or_app; auto.
Qed.

Lemma evalExpr_fresh_prefix (pre : Env) :
  forall fuel env e,
    (forall x, In x (map fst pre) -> ~ In x (identsExpr e)) ->
    evalExpr prog fuel (pre ++ env) e = evalExpr prog fuel env e.
Proof.
  induction pre as [|[x v] pre IH]; intros fuel env e H; [reflexivity|].
  change (((x, v) :: pre) ++ env) with ([] ++ (x, v) :: (pre ++ env)).
  rewrite (proj1 (evalExpr_fresh x v fuel)) by (apply H; now left).
  simpl. apply IH. intros y Hy. apply H. now right.
Qed.

Lemma eventually_fresh_prefix (pre env : Env) (e : Expr) (v : Value) :
  (forall x, In x (map fst pre) -> ~ In x (identsExpr e)) ->
  eventually (fun fuel => evalExpr prog fuel env e) v ->
  eventually (fun fuel => evalExpr prog fuel (pre ++ env) e) v.
Proof.
  intros Hfresh [f0 H]. exists f0. intros fuel Hle.
  rewrite evalExpr_fresh_prefix by assumption. now apply H.
Qed.

(** A declaring assignment of one variable. *)
Lemma execStmt_define (env : Env) (t : string) (a : Expr) (v : Value) :
  eventually (fun fuel => evalExpr prog fuel env a) v ->
  eventually (fun fuel => execStmt prog fuel env
                            (AssignStmt [Ident t] token.DEFINE [a]))
             (Next ((t, v) :: env)).
Proof.
  intros [f0 H]. exists (3 + f0). intros fuel Hle.
  destruct fuel as [|[|[|fuel]]]; try lia.
  assert (He : evalExpr prog (S fuel) env a = Some v) by (apply H; lia).
  cbn [execStmt evalExprs]. rewrite He. reflexivity.
Qed.

(** The values of a list of expressions, one by one. *)
Lemma evalExprs_each (env : Env) (l : list Expr) :
  forall vs,
    eventually (fun fuel => evalExprs prog fuel env l) vs ->
    Forall2 (fun a v => eventually (fun fuel => evalExpr prog fuel env a) v) l vs.
Proof.
  induction l as [|a l IH]; intros vs [f0 H].
  - specialize (H (S f0) (Nat.le_succ_diag_r _)). simpl in H.
    injection H as <-. constructor.
  - pose proof (H (S f0) (Nat.le_succ_diag_r _)) as H1. simpl in H1.
    destruct (evalExpr prog f0 env a) as [v|] eqn:Ha; [|discriminate].
    destruct (evalExprs prog f0 env l) as [vs'|] eqn:Hl; [|discriminate].
    injection H1 as <-. constructor.
    + now apply (evalExpr_eventually prog f0).
    + apply IH. now apply (evalExprs_eventually prog f0).
Qed.

(** The declaring assignments bind the temporaries to the values the
    arguments have before any of them is declared. *)
Lemma declare_phase (env : Env) (T : list string) (rest : list Stmt) (r : Flow) :
  forall names args vs pre,
    Forall2 (fun a v => eventually (fun fuel => evalExpr prog fuel env a) v)
            args vs ->
    length names = length args ->
    (forall t, In t (map fst pre) -> In t T) ->
    (forall n, In n names -> In (tmpName n) T) ->
    (forall t a, In t T -> In a args -> ~ In t (identsExpr a)) ->
    eventually (fun fuel =>
       execStmts prog fuel (tmpFrame names vs ++ pre ++ env) rest) r ->
    eventually (fun fuel =>
       execStmts prog fuel (pre ++ env)
         (map (fun na => AssignStmt [Ident (tmpName (fst na))]
                           token.DEFINE [snd na])
              (combine names args) ++ rest)) r.
Proof.
  induction names as [|n names IH]; intros args vs pre Hvals Hlen Hpre HT Hfresh Hrest.
  - destruct args; [|discriminate]. inversion Hvals; subst. exact Hrest.
  - destruct args as [|a args]; [discriminate|].
    inversion Hvals as [|? v ? vs' Ha Hargs]; subst. simpl.
    apply execStmts_cons_Next with (env' := (tmpName n, v) :: pre ++ env).
    + apply execStmt_define. apply eventually_fresh_prefix; [|exact Ha].
      intros x Hx. apply Hfresh; [now apply Hpre | now left].
    + apply (IH args vs' ((tmpName n, v) :: pre)); try assumption.
      * simpl in Hlen. lia.
      * intros t [<-|Ht]; [apply HT; now left | now apply Hpre].
      * intros m Hm. apply HT. now right.
      * intros t b Ht Hb. apply Hfresh; [assumption | now right].
      * unfold tmpFrame in *. simpl in Hrest.
        rewrite <- app_assoc in Hrest. exact Hrest.
Qed.
(** *** The combined assignment *)

Lemma lookup_bound (l env : Env) (k : string) (v : Value) :
  NoDup (map fst l) -> In (k, v) l -> lookup k (l ++ env) = Some v.
Proof.
  induction l as [|[y w] l IH]; intros Hnd Hin; [destruct Hin|].
  simpl in *. inversion Hnd as [|? ? Hy Hl]; subst.
  destruct Hin as [Heq|Hin].
  - injection Heq as -> ->. now rewrite String.eqb_refl.
  - destruct (String.eqb_spec k y) as [->|_]; [|now apply IH].
    exfalso. apply Hy. change y with (fst (y, v)). now apply in_map.
Qed.

Lemma tmpName_inj (n m : string) : tmpName n = tmpName m -> n = m.
Proof. unfold tmpName. simpl. congruence. Qed.

Lemma tmpName_NoDup (names : list string) :
  NoDup names -> NoDup (map tmpName names).
Proof.
  induction 1 as [|n names Hn _ IH]; simpl; constructor; [|exact IH].
  intros Hin. apply in_map_iff in Hin. destruct Hin as [m [Heq Hm]].
  apply tmpName_inj in Heq. now subst.
Qed.

Lemma tmpFrame_keys (names : list string) (vs : list Value) (t : string) :
  In t (map fst (tmpFrame names vs)) -> In t (map tmpName names).
Proof.
  unfold tmpFrame. rewrite map_rev, <- in_rev. revert vs.
  induction names as [|n names IH]; intros [|v vs]; simpl; try tauto.
  intros [<-|Hin]; [now left | right; now apply (IH vs)].
Qed.

Lemma tmpFrame_NoDup (names : list string) (vs : list Value) :
  NoDup names -> NoDup (map fst (tmpFrame names vs)).
Proof.
  intros Hnd. unfold tmpFrame. rewrite map_rev. apply NoDup_rev.
  apply tmpName_NoDup in Hnd. revert vs Hnd.
  generalize (map tmpName names) as ts.
  induction ts as [|t ts IH]; intros [|v vs] Hnd; simpl; try constructor.
  - inversion Hnd as [|? ? Ht _]; subst. intros Hin. apply Ht.
    clear - Hin. revert vs Hin.
    induction ts as [|u ts IH]; intros [|w vs]; simpl; try tauto.
    intros [<-|Hin]; [now left | right; now apply (IH vs)].
  - apply IH. now inversion Hnd.
Qed.

(** The temporaries hold the values they were declared with. *)
Lemma tmpFrame_lookup (env : Env) (names : list string) (vs : list Value) :
  NoDup names ->
  length names = length vs ->
  Forall2 (fun n v => lookup (tmpName n) (tmpFrame names vs ++ env) = Some v)
          names vs.
Proof.
  intros Hnd Hlen.
  assert (Hin : forall n v, In (n, v) (combine names vs) ->
                  lookup (tmpName n) (tmpFrame names vs ++ env) = Some v).
  { intros n v Hin. apply lookup_bound; [now apply tmpFrame_NoDup|].
    unfold tmpFrame. rewrite <- in_rev. clear - Hin. revert vs Hin.
    induction names as [|m names IH]; intros [|w vs]; simpl; try tauto.
    intros [Heq|Hin]; [left; congruence | right; now apply IH]. }
  clear Hnd. generalize (tmpFrame names vs ++ env) as frame, Hin. clear Hin.
  revert vs Hlen.
  induction names as [|n names IH]; intros [|v vs] Hlen frame Hin;
    try discriminate; constructor.
  - apply Hin. now left.
  - apply IH; [simpl in Hlen; lia|]. intros m w Hm. apply Hin. now right.
Qed.

Lemma evalExprs_idents (frame : Env) (names : list string) (vs : list Value) :
  Forall2 (fun n v => lookup (tmpName n) frame = Some v) names vs ->
  forall fuel,
    length names + 2 <= fuel ->
    evalExprs prog fuel frame (map (fun n => Ident (tmpName n)) names) = Some vs.
Proof.
  induction 1 as [|n v names vs Hn _ IH]; intros fuel Hle.
  - destruct fuel; [lia|]. reflexivity.
  - simpl in Hle. destruct fuel as [|fuel]; [lia|].
    assert (Hhead : evalExpr prog fuel frame (Ident (tmpName n)) = Some v)
      by (destruct fuel; [lia | exact Hn]).
    cbn [map evalExprs]. rewrite Hhead, IH by lia. reflexivity.
Qed.

Lemma identNames_idents (names : list string) :
  identNames (map Ident names) = Some names.
Proof. induction names as [|n names IH]; simpl; [|rewrite IH]; reflexivity. Qed.

Lemma assign_below (pre env : Env) (x : string) (v : Value) :
  ~ In x (map fst pre) ->
  assign x v (pre ++ env) =
  match assign x v env with Some env' => Some (pre ++ env') | None => None end.
Proof.
  induction pre as [|[y w] pre IH]; intros Hx; simpl.
  - now destruct (assign x v env).
  - destruct (String.eqb_spec x y) as [->|_]; [exfalso; apply Hx; now left|].
    rewrite IH by (intros Hin; apply Hx; now right).
    now destruct (assign x v env).
Qed.

Lemma assignAll_below (pre : Env) (names : list string) :
  (forall x, In x names -> ~ In x (map fst pre)) ->
  forall vs env env',
    assignAll names vs env = Some env' ->
    assignAll names vs (pre ++ env) = Some (pre ++ env').
Proof.
  intros Hpre. induction names as [|n names IH]; intros [|v vs] env env' H;
    simpl in H |- *; try discriminate.
  - now injection H as <-.
  - rewrite assign_below by (apply Hpre; now left).
    destruct (assign n v env) as [env1|]; [|discriminate].
    apply IH; [|exact H]. intros x Hx. apply Hpre. now right.
Qed.

Lemma assignAll_length (names : list string) :
  forall vs env env',
    assignAll names vs env = Some env' -> length names = length vs.
Proof.
  induction names as [|n names IH]; intros [|v vs] env env' H;
    simpl in *; try discriminate; [reflexivity|].
  destruct (assign n v env) as [env1|]; [|discriminate].
  f_equal. eapply IH; eassumption.
Qed.

(** The staging statements run as one simultaneous assignment. *)
Lemma staged_runs (params : list Field) (args : list Expr)
    (env env' : Env) (vs : list Value) :
  length (firstNames params) <= length args ->
  NoDup (firstNames params) ->
  (forall n m, In n (firstNames params) -> In m (firstNames params) ->
               tmpName n <> m) ->
  (forall n a, In n (firstNames params) -> In a args ->
               ~ In (tmpName n) (identsExpr a)) ->
  eventually (fun fuel => evalExprs prog fuel env
                            (firstn (length (firstNames params)) args)) vs ->
  assignAll (firstNames params) vs env = Some env' ->
  eventually (fun fuel => execStmts prog fuel env (staged params args))
             (Next (tmpFrame (firstNames params) vs ++ env')).
Proof.
  set (names := firstNames params).
  intros Hlen Hnd Hclash Hfresh Hvals Hassign.
  pose proof (assignAll_length _ _ _ _ Hassign) as Hvs.
  unfold staged. fold names. rewrite combine_firstn_l.
  apply (declare_phase env (map tmpName names) _ _ names
           (firstn (length names) args) vs []).
  - now apply evalExprs_each.
  - rewrite length_firstn. lia.
  - intros t [].
  - intros n Hn. now apply in_map.
  - intros t a Ht Ha. apply in_map_iff in Ht. destruct Ht as [n [<- Hn]].
    apply Hfresh; [exact Hn|].
    rewrite <- (firstn_skipn (length names) args). apply in_or_app. now left.
  - simpl. exists (length names + 4). intros fuel Hle.
    destruct fuel as [|fuel]; [lia|].
    assert (Hlast : execStmt prog fuel (tmpFrame names vs ++ env)
                      (AssignStmt (map Ident names) token.ASSIGN
                         (map (fun n => Ident (tmpName n)) names))
                    = Some (Next (tmpFrame names vs ++ env'))).
    { destruct fuel as [|fuel]; [lia|]. cbn [execStmt].
      rewrite (evalExprs_idents (tmpFrame names vs ++ env) names vs)
        by (try lia; now apply tmpFrame_lookup).
      rewrite identNames_idents.
      rewrite (assignAll_below (tmpFrame names vs) names) with (env' := env');
        [reflexivity| |exact Hassign].
      intros x Hx Hin. apply tmpFrame_keys in Hin.
      apply in_map_iff in Hin. destruct Hin as [n [Heq Hn]].
      now apply (Hclash n x). }
    cbn [execStmts]. rewrite Hlast.
    destruct fuel; [lia|]. reflexivity.
Qed.
End Staging.

(** X15.  The statements makeAssignStmts returns run as one simultaneous
    assignment.  Let the parameter names be distinct, none of them the
    temporary of a parameter, and let no call argument mention such a
    temporary.  When the arguments paired with the named fields have the
    values [vs] in a frame, and assigning [vs] to the first names at once
    turns that frame into [env'], then running the statements from the
    frame ends in [env'] with the temporaries, bound to [vs], declared on
    top of it: every argument is read before any parameter is written. *)
Theorem makeAssignStmts_simultaneous (prog : list FuncDecl)
    (params : list Field) (args : list Expr) (stmts : list Stmt)
    (env env' : Env) (vs : list Value) :
  makeAssignStmts params args = Ok stmts ->
  NoDup (firstNames params) ->
  (forall n m, In n (firstNames params) -> In m (firstNames params) ->
               tmpName n <> m) ->
  (forall n a, In n (firstNames params) -> In a args ->
               ~ In (tmpName n) (identsExpr a)) ->
  eventually (fun fuel => evalExprs prog fuel env
                            (firstn (length (firstNames params)) args)) vs ->
  assignAll (firstNames params) vs env = Some env' ->
  eventually (fun fuel => execStmts prog fuel env stmts)
             (Next (tmpFrame (firstNames params) vs ++ env')).
Proof.
  intros Hok Hnd Hclash Hfresh Hvals Hassign.
  rewrite (makeAssignStmts_Ok _ _ _ Hok).
  apply staged_runs; try assumption.
  exact (makeAssignStmts_covers _ _ _ Hok).
Qed.

Lemma makeAssignStmts_simultaneous_witness :
  eventually
    (fun fuel => execStmts [] fuel (swapFrame 1 2) SwapStaging)
    (Next (tmpFrame ["a"; "b"] [VInt 2; VInt 1] ++ swapFrame 2 1)).
Proof.
  apply (makeAssignStmts_simultaneous []
           [mkField ["a"] (Ident "int"); mkField ["b"] (Ident "int")]
           [Ident "b"; Ident "a"] SwapStaging
           (swapFrame 1 2) (swapFrame 2 1) [VInt 2; VInt 1]).
  - reflexivity.
  - repeat constructor; simpl; intuition discriminate.
  - simpl. intros n m [<-|[<-|[]]] [<-|[<-|[]]]; discriminate.
  - simpl. intros n a [<-|[<-|[]]] [<-|[<-|[]]]; simpl; intuition discriminate.
  - exists 3. intros fuel Hle.
    destruct fuel as [|[|[|fuel]]]; try lia. reflexivity.
  - reflexivity.
Defined.

(** ** The staging statements of a rewritten function *)

Lemma firstNames_single_names (params : list Field) :
  Forall (fun p => length (Names p) = 1) params ->
  firstNames params = flat_map Names params.
Proof.
  induction 1 as [|p rest Hp _ IH]; [reflexivity|].
  unfold firstNames in *. simpl. rewrite IH.
  now destruct (Names p) as [|n [|m more]].
Qed.

Lemma callFunc_from (prog : list FuncDecl) (k : nat) (fn : FuncDecl)
    (vs rs : list Value) :
  callFunc prog k fn vs = Some rs ->
  eventually (fun fuel => callFunc prog fuel fn vs) rs.
Proof. intros H. exists k. intros fuel Hle. now apply (callFunc_mono prog k). Qed.

(** C6, as amended.  In every rewritten function whose parameter fields
    have one name each, the loop body starts with one declaring
    assignment per parameter, of the temporary ["tmp"] followed by its
    name to the argument that the call reported by the detector has at
    the position of the parameter, and then one combined assignment of
    all these temporaries to their parameters.  When the names are
    distinct, none of them is the name of a temporary and no argument
    mentions a temporary, these statements run as one simultaneous
    assignment: from a frame in which the arguments have the values
    [vs] they lead to the frame in which every parameter has taken its
    value of [vs], the temporaries bound to [vs] on top of it.  For
    [F(a, b)] returning [F(b, a)], one field per parameter, the loop body
    is [tmpa := b; tmpb := a; a, b = tmpa, tmpb]: after any number of
    turns the loop holds the same [(a, b)] as the frame reached by that
    many recursive calls, the pair exchanged that many times, and the
    two functions return the same results. *)
Theorem C6_staged_simultaneous_update :
  (forall (prog : list FuncDecl) (fn : FuncDecl) (l : list Stmt),
      rewrittenTo fn l ->
      Forall (fun p => length (Names p) = 1) (Params fn) ->
      exists body ret callee callArgs cond rest after,
        Body fn = Some body /\
        findTailRecursionReturn (Name fn) body =
          Ok {| tailReturn := Some ret; call := Some (CallExpr callee callArgs) |} /\
        length (flat_map Names (Params fn)) <= length callArgs /\
        l = [ ForStmt None (Some cond) None
                ((map (fun na => AssignStmt [Ident ("tmp" ++ fst na)%string]
                                   token.DEFINE [snd na])
                      (combine (flat_map Names (Params fn)) callArgs)
                  ++ [AssignStmt (map Ident (flat_map Names (Params fn)))
                        token.ASSIGN
                        (map (fun n => Ident ("tmp" ++ n)%string)
                             (flat_map Names (Params fn)))])
                 ++ rest);
              after ] /\
        (NoDup (flat_map Names (Params fn)) ->
         (forall n m, In n (flat_map Names (Params fn)) ->
                      In m (flat_map Names (Params fn)) ->
                      ("tmp" ++ n)%string <> m) ->
         (forall n a, In n (flat_map Names (Params fn)) -> In a callArgs ->
                      ~ In ("tmp" ++ n)%string (identsExpr a)) ->
         forall (env env' : Env) (vs : list Value),
           eventually
             (fun fuel => evalExprs prog fuel env
                            (firstn (length (flat_map Names (Params fn))) callArgs))
             vs ->
           assignAll (flat_map Names (Params fn)) vs env = Some env' ->
           eventually
             (fun fuel => execStmts prog fuel env
                (map (fun na => AssignStmt [Ident ("tmp" ++ fst na)%string]
                                  token.DEFINE [snd na])
                     (combine (flat_map Names (Params fn)) callArgs)
                 ++ [AssignStmt (map Ident (flat_map Names (Params fn)))
                       token.ASSIGN
                       (map (fun n => Ident ("tmp" ++ n)%string)
                            (flat_map Names (Params fn)))]))
             (Next (tmpFrame (flat_map Names (Params fn)) vs ++ env')))) /\
  (forall ta tb : Expr, rewriteFunc (Swap ta tb) = Ok (SwapLoop ta tb)) /\
  (forall (prog : list FuncDecl) (ta tb : Expr) (a0 b0 : Z) (k : nat),
      eventually
        (fun fuel => loopTurns prog SwapStaging k fuel (swapFrame a0 b0))
        (swapFrame (fst (swapped k (a0, b0))) (snd (swapped k (a0, b0)))) /\
      eventually
        (fun fuel => callFrames prog (Swap ta tb) [Ident "b"; Ident "a"] k fuel
                       (swapFrame a0 b0))
        (swapFrame (fst (swapped k (a0, b0))) (snd (swapped k (a0, b0))))) /\
  (forall (ta tb : Expr) (a0 b0 : Z) (v : Value),
      eventually
        (fun fuel => callFunc [Swap ta tb] fuel (Swap ta tb) [VInt a0; VInt b0])
        [v] <->
      eventually
        (fun fuel => callFunc [SwapLoop ta tb] fuel (SwapLoop ta tb)
                       [VInt a0; VInt b0])
        [v]).
Proof.
  split; [|split; [|split]].
  - intros prog fn l (body & Hbody & Hrw) Hsingle.
    apply rewriteBody_Some in Hrw
      as (ret & callee & callArgs & init & cond & thenBranch & els & tl
          & Hfind & -> & Hstage & ->).
    pose proof (makeAssignStmts_covers _ _ _ Hstage) as Hlen.
    rewrite <- (firstNames_single_names _ Hsingle).
    exists (IfStmt init cond thenBranch els :: tl), ret, callee, callArgs,
      (loopCond cond), (remainder (Name fn) tl), (baseReturn thenBranch).
    split; [exact Hbody|]. split; [exact Hfind|]. split; [exact Hlen|].
    split; [reflexivity|].
    intros Hnd Hclash Hfresh env env' vs Hvals Hassign.
    now apply (staged_runs prog (Params fn) callArgs env env' vs).
  - reflexivity.
  - intros prog ta tb a0 b0 k. split.
    + apply loopTurns_swap.
    + apply callFrames_swap.
  - intros ta tb a0 b0 v.
    assert (Hfind : findFunc "F" [Swap ta tb] = Some (Swap ta tb)) by reflexivity.
    destruct (Z.eq_dec a0 0) as [->|Ha].
    + split; intros H.
      * apply (callFunc_unique _ _ _ _ _ (Swap_returns_b [Swap ta tb] ta tb b0)) in H.
        injection H as <-. apply SwapLoop_returns_b.
      * apply (callFunc_unique _ _ _ _ _ (SwapLoop_returns_b [SwapLoop ta tb] ta tb b0)) in H.
        injection H as <-. apply Swap_returns_b.
    + destruct (Z.eq_dec b0 0) as [->|Hb].
      * split; intros H.
        -- apply (callFunc_unique _ _ _ _ _
                    (Swap_returns_a [Swap ta tb] ta tb Hfind a0 Ha)) in H.
           injection H as <-. now apply SwapLoop_returns_a.
        -- apply (callFunc_unique _ _ _ _ _
                    (SwapLoop_returns_a [SwapLoop ta tb] ta tb a0 Ha)) in H.
           injection H as <-. now apply Swap_returns_a.
      * split; intros [fuel0 H]; specialize (H fuel0 (Nat.le_refl _)).
        -- now rewrite (Swap_diverges _ ta tb Hfind fuel0 a0 b0 Ha Hb) in H.
        -- now rewrite (SwapLoop_diverges _ ta tb a0 b0 Ha Hb fuel0) in H.
Qed.

(** C6 at [F] itself: from the frame [(a, b) = (1, 2)] its staging
    statements lead to the frame [(2, 1)]. *)
Lemma C6_staged_simultaneous_update_witness :
  eventually
    (fun fuel => execStmts [] fuel (swapFrame 1 2) SwapStaging)
    (Next (tmpFrame ["a"; "b"] [VInt 2; VInt 1] ++ swapFrame 2 1)).
Proof.
  destruct (proj1 C6_staged_simultaneous_update []
              (Swap (Ident "int") (Ident "int")) SwapLoopBody)
    as (body & ret & callee & callArgs & cond & rest & after
        & Hbody & Hfind & _ & _ & Hruns).
  - exists SwapBody. split; reflexivity.
  - repeat constructor.
  - injection Hbody as <-.
    assert (Hargs : callArgs = [Ident "b"; Ident "a"])
      by (now injection Hfind as _ _ <-).
    subst callArgs.
    apply (Hruns ltac:(repeat constructor; simpl; intuition discriminate)).
    + simpl. intros n m [<-|[<-|[]]] [<-|[<-|[]]]; discriminate.
    + simpl. intros n a [<-|[<-|[]]] [<-|[<-|[]]]; simpl; intuition discriminate.
    + apply (evalExprs_eventually [] 3). reflexivity.
    + reflexivity.
Defined.

(** C6 as stated fails on [Clash2], whose second parameter has the name
    of the temporary of the first: the fields have one name each and the
    names are distinct, but the declaring assignment of [tmptmpa] reads
    the temporary [tmpa] declared just before it, not the parameter.
    From the frame [(a, tmpa) = (2, 5)], where the argument [tmpa + 1]
    has the value 6, the staging statements bind [tmptmpa] to 2 and leave
    the parameter [tmpa] at 5; [Clash2(2, 5)] returns 7 and its rewritten
    form returns 5. *)
Lemma C6_clash_counterexample :
  rewriteFunc Clash2 = Ok Clash2Loop /\
  Forall (fun p => length (Names p) = 1) (Params Clash2) /\
  NoDup (flat_map Names (Params Clash2)) /\
  evalExpr [Clash2] 3 (clash2Frame 2 5)
    (BinaryExpr (Ident "tmpa") token.ADD (BasicLit 1)) = Some (VInt 6) /\
  execStmts [Clash2] 10 (clash2Frame 2 5) Clash2Staging =
    Some (Next [ ("tmptmpa", VInt 2); ("tmpa", VInt 2);
                 ("tmpa", VInt 5); ("a", VInt 1) ]) /\
  eventually (fun fuel => callFunc [Clash2] fuel Clash2 [VInt 2; VInt 5])
             [VInt 7] /\
  eventually (fun fuel => callFunc [Clash2Loop] fuel Clash2Loop [VInt 2; VInt 5])
             [VInt 5].
Proof.
  split; [reflexivity|]. split; [repeat constructor|].
  split; [repeat constructor; simpl; intuition discriminate|].
  split; [reflexivity|]. split; [reflexivity|].
  split; [apply (callFunc_from _ 30) | apply (callFunc_from _ 30)]; reflexivity.
Qed.

(** ** A guard followed by the tail call *)

Section Inversion.
Variable prog : list FuncDecl.

Lemma execStmts_cons_inv (fuel : nat) (env : Env) (s : Stmt) (l : list Stmt)
    (r : Flow) :
  execStmts prog fuel env (s :: l) = Some r ->
  exists k r0,
    fuel = S k /\ execStmt prog k env s = Some r0 /\
    match r0 with
    | Ret vs => r = Ret vs
    | Next env' => execStmts prog k env' l = Some r
    end.
Proof.
  destruct fuel as [|k]; [discriminate|]. simpl.
  destruct (execStmt prog k env s) as [[env'|vs]|] eqn:E1; [| |discriminate]; intros H.
  - exists k, (Next env'). repeat split; auto.
  - exists k, (Ret vs). injection H as <-. auto.
Qed.

Lemma evalExprs_single_inv (fuel : nat) (env : Env) (e : Expr) (vs : list Value) :
  evalExprs prog fuel env [e] = Some vs ->
  exists k v, fuel = S k /\ evalExpr prog k env e = Some v /\ vs = [v].
Proof.
  destruct fuel as [|k]; [discriminate|]. simpl.
  destruct (evalExpr prog k env e) as [v|] eqn:E2; [|discriminate].
  destruct k as [|k]; [discriminate|]. simpl.
  intros H. injection H as <-. exists (S k), v. repeat split; auto.
Qed.

Lemma execStmt_return_inv (fuel : nat) (env : Env) (es : list Expr) (r : Flow) :
  execStmt prog fuel env (ReturnStmt es) = Some r ->
  exists k vs, fuel = S k /\ evalExprs prog k env es = Some vs /\ r = Ret vs.
Proof.
  destruct fuel as [|k]; [discriminate|]. simpl.
  destruct (evalExprs prog k env es) as [vs|] eqn:E3; [|discriminate].
  intros H. injection H as <-. exists k, vs. repeat split; auto.
Qed.

Lemma evalExpr_call_inv (fuel : nat) (env : Env) (f : string) (args : list Expr)
    (v : Value) :
  evalExpr prog fuel env (CallExpr (Ident f) args) = Some v ->
  exists k vs fn,
    fuel = S k /\ evalExprs prog k env args = Some vs /\
    findFunc f prog = Some fn /\ callFunc prog k fn vs = Some [v].
Proof.
  destruct fuel as [|k]; [discriminate|]. simpl.
  destruct (evalExprs prog k env args) as [vs|] eqn:E4; [|discriminate].
  destruct (findFunc f prog) as [fn|] eqn:E5; [|discriminate].
  destruct (callFunc prog k fn vs) as [[|w [|]]|] eqn:E6; try discriminate.
  intros H. injection H as <-. exists k, vs, fn. repeat split; auto.
Qed.

Lemma leaveBlock_same (env : Env) : leaveBlock env env = env.
Proof. unfold leaveBlock. now rewrite Nat.sub_diag. Qed.

Lemma execStmt_guard_inv (fuel : nat) (env : Env) (cond : Expr)
    (thenBranch : list Stmt) (r : Flow) :
  execStmt prog fuel env (guard cond thenBranch) = Some r ->
  exists k b,
    fuel = S k /\ evalExpr prog k env cond = Some (VBool b) /\
    if b then exists r', execStmts prog k env thenBranch = Some r' /\ r = leave env r'
    else r = Next env.
Proof.
  destruct fuel as [|k]; [discriminate|]. simpl.
  destruct (evalExpr prog k env cond) as [[z|[|]]|] eqn:E7; try discriminate.
  - destruct (execStmts prog k env thenBranch) as [r'|] eqn:E8; [|discriminate].
    intros H. injection H as <-. exists k, true. split; [reflexivity|]. split; [assumption|]. now exists r'.
  - rewrite leaveBlock_same. intros H. injection H as <-. exists k, false. repeat split; auto.
Qed.

Lemma execStmt_For_inv (fuel : nat) (env : Env) (cond : Expr) (body : list Stmt)
    (r : Flow) :
  execStmt prog fuel env (ForStmt None (Some cond) None body) = Some r ->
  exists k b,
    fuel = S k /\ evalExpr prog k env cond = Some (VBool b) /\
    if b
    then exists r',
        execStmts prog k env body = Some r' /\
        match leave env r' with
        | Ret vs => r = Ret vs
        | Next env1 =>
            execStmt prog k env1 (ForStmt None (Some cond) None body) = Some r
        end
    else r = Next env.
Proof.
  destruct fuel as [|k]; [discriminate|]. simpl.
  destruct (evalExpr prog k env cond) as [[z|[|]]|] eqn:E9; try discriminate.
  - destruct (execStmts prog k env body) as [r'|] eqn:E10; [|discriminate].
    intros H. exists k, true. split; [reflexivity|]. split; [assumption|].
    exists r'. split; [assumption|].
    destruct (leave env r') as [env1|vs]; [exact H | now injection H as <-].
  - intros H. injection H as <-. exists k, false. repeat split; auto.
Qed.

Lemma callFunc_inv (fuel : nat) (fn : FuncDecl) (vs rs : list Value) :
  callFunc prog fuel fn vs = Some rs ->
  exists k body env,
    fuel = S k /\ Body fn = Some body /\
    bindParams (Params fn) vs [] = Some env /\
    execStmts prog k env body = Some (Ret rs).
Proof.
  destruct fuel as [|k]; [discriminate|]. simpl.
  destruct (Body fn) as [body|] eqn:E11; [|discriminate].
  destruct (bindParams (Params fn) vs []) as [env|] eqn:E12; [|discriminate].
  destruct (execStmts prog k env body) as [[env'|rs']|] eqn:E13; try discriminate.
  intros H. injection H as <-. exists k, body, env. repeat split; auto.
Qed.

Lemma execStmt_define_inv (fuel : nat) (env : Env) (t : string) (a : Expr)
    (r : Flow) :
  execStmt prog fuel env (AssignStmt [Ident t] token.DEFINE [a]) = Some r ->
  exists k v, k < fuel /\ evalExpr prog k env a = Some v /\ r = Next ((t, v) :: env).
Proof.
  destruct fuel as [|k]; [discriminate|]. cbn [execStmt].
  destruct (evalExprs prog k env [a]) as [vs|] eqn:Ha; [|discriminate].
  apply evalExprs_single_inv in Ha. destruct Ha as (k' & v & -> & Ha & ->).
  simpl. intros H. injection H as <-. exists k', v. repeat split; auto.
Qed.

(** The guard and the loop, forwards. *)
Lemma execStmt_guard_true (env : Env) (cond : Expr) (thenBranch : list Stmt)
    (r : Flow) :
  eventually (fun fuel => evalExpr prog fuel env cond) (VBool true) ->
  eventually (fun fuel => execStmts prog fuel env thenBranch) r ->
  eventually (fun fuel => execStmt prog fuel env (guard cond thenBranch))
             (leave env r).
Proof.
  intros [f1 H1] [f2 H2]. exists (S (Nat.max f1 f2)).
  intros [|fuel] Hle; [lia|]. simpl.
  rewrite H1 by lia. now rewrite H2 by lia.
Qed.

Lemma execStmt_guard_false (env : Env) (cond : Expr) (thenBranch : list Stmt) :
  eventually (fun fuel => evalExpr prog fuel env cond) (VBool false) ->
  eventually (fun fuel => execStmt prog fuel env (guard cond thenBranch))
             (Next env).
Proof.
  intros [f1 H1]. exists (S f1).
  intros [|fuel] Hle; [lia|]. simpl.
  rewrite H1 by lia. now rewrite leaveBlock_same.
Qed.

(** The values of a list of expressions, from the value of each. *)
Lemma evalExprs_all (env : Env) (l : list Expr) (vs : list Value) :
  Forall2 (fun a v => eventually (fun fuel => evalExpr prog fuel env a) v) l vs ->
  eventually (fun fuel => evalExprs prog fuel env l) vs.
Proof.
  induction 1 as [|a v l vs [f1 H1] _ [f2 H2]].
  - exists 1. intros [|fuel] Hle; [lia | reflexivity].
  - exists (S (Nat.max f1 f2)). intros [|fuel] Hle; [lia|]. simpl.
    rewrite H1 by lia. now rewrite H2 by lia.
Qed.

(** The loop condition is the negation of a guard comparing by [==] or
    [!=]. *)
Lemma loopCond_negates (fuel : nat) (env : Env) (X Y : Expr) (op : token.Token) :
  op = token.EQL \/ op = token.NEQ ->
  evalExpr prog fuel env (loopCond (BinaryExpr X op Y)) =
  option_map negateValue (evalExpr prog fuel env (BinaryExpr X op Y)).
Proof.
  intros [->| ->]; destruct fuel as [|fuel]; try reflexivity; simpl;
    destruct (evalExpr prog fuel env X) as [[x|x]|] eqn:E14; try reflexivity;
    destruct (evalExpr prog fuel env Y) as [[y|y]|] eqn:E15; try reflexivity;
    simpl; now rewrite ?negb_involutive.
Qed.
End Inversion.

Section Turn.
Variable prog : list FuncDecl.

(** A turn of a loop that is followed by more statements. *)
Lemma execStmts_For_turn (env inner : Env) (cond : Expr) (body rest : list Stmt)
    (R : Flow) :
  eventually (fun fuel => evalExpr prog fuel env cond) (VBool true) ->
  eventually (fun fuel => execStmts prog fuel env body) (Next inner) ->
  eventually (fun fuel =>
     execStmts prog fuel (leaveBlock env inner)
       (ForStmt None (Some cond) None body :: rest)) R ->
  eventually (fun fuel =>
     execStmts prog fuel env (ForStmt None (Some cond) None body :: rest)) R.
Proof.
  intros Hc Hb [f H]. pose proof (H f (le_n _)) as H0.
  apply execStmts_cons_inv in H0. destruct H0 as (k & r0 & -> & Hfor & Hrest).
  destruct (execStmt_For_true prog env inner cond body r0 Hc Hb
              (execStmt_eventually prog k _ _ _ Hfor)) as [f1 H1].
  exists (S (Nat.max f1 k)). intros [|fuel] Hle; [lia|]. simpl.
  rewrite H1 by lia. destruct r0 as [env2|ws]; [|now subst].
  eapply execStmts_mono; [exact Hrest | lia].
Qed.

(** The declaring assignments read every argument in the frame as it
    was before the first of them. *)
Lemma declare_phase_inv (env : Env) (T : list string) (rest : list Stmt) :
  forall names args pre fuel r,
    length names = length args ->
    (forall t, In t (map fst pre) -> In t T) ->
    (forall n, In n names -> In (tmpName n) T) ->
    (forall t a, In t T -> In a args -> ~ In t (identsExpr a)) ->
    execStmts prog fuel (pre ++ env)
      (map (fun na => AssignStmt [Ident (tmpName (fst na))]
                        token.DEFINE [snd na])
           (combine names args) ++ rest) = Some r ->
    exists vs,
      Forall2 (fun a v => eventually (fun k => evalExpr prog k env a) v) args vs.
Proof.
  induction names as [|n names IH]; intros [|a args] pre fuel r Hlen Hpre HT Hfresh Hrun;
    try discriminate.
  - exists []. constructor.
  - simpl in Hrun. apply execStmts_cons_inv in Hrun.
    destruct Hrun as (k & r0 & -> & Hdef & Hrest).
    apply execStmt_define_inv in Hdef. destruct Hdef as (k' & v & _ & Ha & ->).
    rewrite evalExpr_fresh_prefix in Ha
      by (intros x Hx; apply Hfresh; [now apply Hpre | now left]).
    destruct (IH args ((tmpName n, v) :: pre) k r) as [vs Hvs].
    + simpl in Hlen. lia.
    + intros t [<-|Ht]; [apply HT; now left | now apply Hpre].
    + intros m Hm. apply HT. now right.
    + intros t b Ht Hb. apply Hfresh; [assumption | now right].
    + exact Hrest.
    + exists (v :: vs). constructor; [|exact Hvs].
      now apply (evalExpr_eventually prog k').
Qed.

Lemma staged_inv (params : list Field) (args : list Expr) (env : Env)
    (fuel : nat) (r : Flow) :
  length (firstNames params) = length args ->
  (forall n a, In n (firstNames params) -> In a args ->
               ~ In (tmpName n) (identsExpr a)) ->
  execStmts prog fuel env (staged params args) = Some r ->
  exists vs, eventually (fun k => evalExprs prog k env args) vs.
Proof.
  intros Hlen Hfresh Hrun. unfold staged in Hrun.
  destruct (declare_phase_inv env (map tmpName (firstNames params))
              [AssignStmt (map Ident (firstNames params)) token.ASSIGN
                 (map (fun n => Ident (tmpName n)) (firstNames params))]
              (firstNames params) args [] fuel r Hlen) as [vs Hvs].
  - intros t [].
  - intros n Hn. now apply in_map.
  - intros t a Ht Ha. apply in_map_iff in Ht. destruct Ht as [n [<- Hn]].
    now apply Hfresh.
  - exact Hrun.
  - exists vs. now apply evalExprs_all.
Qed.
End Turn.

(** *** Frames of functions whose fields have one name each *)

Lemma firstNames_single (params : list Field) :
  Forall (fun p => length (Names p) = 1) params ->
  length (firstNames params) = length params.
Proof.
  induction 1 as [|p rest Hp _ IH]; [reflexivity|].
  unfold firstNames in *. simpl.
  destruct (Names p) as [|n [|m l]]; try discriminate.
  simpl. now rewrite IH.
Qed.

Lemma bindParams_single (params : list Field) :
  Forall (fun p => length (Names p) = 1) params ->
  forall vs env,
    bindParams params vs env =
    if Nat.eqb (length vs) (length params)
    then Some (paramFrame (firstNames params) vs ++ env)
    else None.
Proof.
  induction 1 as [|p rest Hp _ IH]; intros vs env.
  - destruct vs; reflexivity.
  - unfold firstNames. simpl.
    destruct (Names p) as [|n [|m l]]; try discriminate.
    destruct vs as [|v vs]; [reflexivity|]. simpl.
    rewrite IH. unfold paramFrame, firstNames. simpl.
    now rewrite <- app_assoc.
Qed.

Lemma paramFrame_keys (names : list string) (vs : list Value) (x : string) :
  In x (map fst (paramFrame names vs)) -> In x names.
Proof.
  unfold paramFrame. rewrite map_rev, <- in_rev. revert vs.
  induction names as [|n names IH]; intros [|v vs]; simpl; try tauto.
  intros [<-|Hin]; [now left | right; now apply (IH vs)].
Qed.

Lemma paramFrame_length (names : list string) (vs : list Value) :
  length vs = length names -> length (paramFrame names vs) = length names.
Proof.
  intros H. unfold paramFrame. rewrite length_rev, length_combine. lia.
Qed.

(** Assigning to all parameters at once gives the frame of a call with
    the new values. *)
Lemma assignAll_paramFrame (names : list string) :
  NoDup names ->
  forall vs ws base,
    length vs = length names -> length ws = length names ->
    assignAll names ws (paramFrame names vs ++ base) =
    Some (paramFrame names ws ++ base).
Proof.
  induction 1 as [|n names Hn _ IH]; intros [|v vs] [|w ws] base Hv Hw;
    try discriminate; [reflexivity|].
  simpl in Hv, Hw. unfold paramFrame. cbn [combine rev assignAll].
  rewrite <- !app_assoc. cbn [app].
  rewrite assign_below by (intros Hin; apply Hn; now apply paramFrame_keys in Hin).
  cbn [assign]. rewrite String.eqb_refl.
  apply (IH vs ws ((n, w) :: base)); lia.
Qed.

Lemma leaveBlock_app (env env' pre : Env) :
  length env' = length env -> leaveBlock env (pre ++ env') = env'.
Proof.
  intros Hlen. unfold leaveBlock. rewrite length_app, Hlen.
  replace (length pre + length env - length env) with (length pre) by lia.
  rewrite skipn_app, Nat.sub_diag, skipn_all. reflexivity.
Qed.

(** *** The guard, the tail call and the loop that replaces them *)

Section TailCall.
Variable prog : list FuncDecl.
Variable fn : FuncDecl.
Variables (X Y r : Expr) (op : token.Token).
Variable thenRest : list Stmt.
Variable args : list Expr.

Let names : list string := firstNames (Params fn).
Let cond : Expr := BinaryExpr X op Y.
Let loop : Stmt :=
  ForStmt None (Some (loopCond cond)) None (staged (Params fn) args).

Hypothesis Hbody :
  Body fn = Some [ guard cond (ReturnStmt [r] :: thenRest);
                   returnCall (Name fn) args ].
Hypothesis Hop : op = token.EQL \/ op = token.NEQ.
Hypothesis Hsingle : Forall (fun p => length (Names p) = 1) (Params fn).
Hypothesis Hnd : NoDup names.
Hypothesis Hclash : forall n m, In n names -> In m names -> tmpName n <> m.
Hypothesis Hfresh :
  forall n a, In n names -> In a args -> ~ In (tmpName n) (identsExpr a).
Hypothesis Hlen : length args = length (Params fn).
Hypothesis Hfind : findFunc (Name fn) prog = Some fn.

Lemma names_length : length names = length (Params fn).
Proof. apply firstNames_single, Hsingle. Qed.

Lemma bind_frame (vs : list Value) :
  length vs = length (Params fn) ->
  bindParams (Params fn) vs [] = Some (paramFrame names vs).
Proof.
  intros Hvs. rewrite (bindParams_single _ Hsingle), Hvs, Nat.eqb_refl.
  now rewrite app_nil_r.
Qed.

(** One turn of the loop takes the frame of a call to the frame of the
    call it makes. *)
Lemma frame_step (vs vs1 : list Value) :
  length vs = length (Params fn) ->
  eventually (fun k => evalExprs prog k (paramFrame names vs) args) vs1 ->
  length vs1 = length (Params fn) /\
  eventually (fun k => execStmts prog k (paramFrame names vs)
                         (staged (Params fn) args))
             (Next (tmpFrame names vs1 ++ paramFrame names vs1)) /\
  leaveBlock (paramFrame names vs) (tmpFrame names vs1 ++ paramFrame names vs1)
  = paramFrame names vs1.
Proof.
  intros Hvs Hargs.
  assert (Hvs1 : length vs1 = length (Params fn)).
  { apply evalExprs_each in Hargs. apply Forall2_length in Hargs. lia. }
  pose proof names_length as Hn.
  split; [exact Hvs1|]. split.
  - apply staged_runs; fold names; try assumption.
    + lia.
    + rewrite firstn_all2 by lia. exact Hargs.
    + rewrite <- (app_nil_r (paramFrame names vs)).
      rewrite (assignAll_paramFrame names Hnd vs vs1 []) by lia.
      now rewrite app_nil_r.
  - apply leaveBlock_app. rewrite !paramFrame_length; lia.
Qed.

(** What a call returns, the loop followed by the base Return returns. *)
Lemma call_to_loop :
  forall fuel vs rs,
    callFunc prog fuel fn vs = Some rs ->
    length vs = length (Params fn) /\
    eventually (fun k => execStmts prog k (paramFrame names vs)
                           [loop; ReturnStmt [r]])
               (Ret rs).
Proof.
  induction fuel as [fuel IH] using lt_wf_ind. intros vs rs Hcall.
  apply callFunc_inv in Hcall.
  destruct Hcall as (k & body & env & -> & Hb & Hbind & Hrun).
  rewrite Hbody in Hb. injection Hb as <-.
  rewrite (bindParams_single _ Hsingle) in Hbind.
  destruct (Nat.eqb_spec (length vs) (length (Params fn))) as [Hvs|];
    [|discriminate].
  injection Hbind as <-. rewrite app_nil_r in Hrun. fold names in Hrun.
  split; [exact Hvs|].
  apply execStmts_cons_inv in Hrun.
  destruct Hrun as (k1 & r0 & -> & Hguard & Hrest).
  apply execStmt_guard_inv in Hguard.
  destruct Hguard as (k2 & b & -> & Hcond & Hb).
  destruct b.
  - destruct Hb as (r' & Hthen & ->).
    apply execStmts_cons_inv in Hthen.
    destruct Hthen as (k3 & r1 & -> & Hret & Hr1).
    apply execStmt_return_inv in Hret.
    destruct Hret as (k4 & ws & -> & Hws & ->).
    subst r'. simpl in Hrest. injection Hrest as ->.
    apply execStmts_cons_Next with (env' := paramFrame names vs).
    + apply execStmt_For_false.
      apply (evalExpr_eventually prog (S (S k4))).
      unfold cond in *. rewrite loopCond_negates by exact Hop.
      now rewrite Hcond.
    + apply execStmts_cons_Ret.
      apply (execStmt_eventually prog (S k4)). simpl. now rewrite Hws.
  - subst r0. apply execStmts_cons_inv in Hrest.
    destruct Hrest as (k3 & r1 & Hk & Hret & Hr1). injection Hk as <-.
    apply execStmt_return_inv in Hret.
    destruct Hret as (k4 & ws & -> & Hws & ->).
    apply evalExprs_single_inv in Hws.
    destruct Hws as (k5 & v & -> & Hv & ->).
    apply evalExpr_call_inv in Hv.
    destruct Hv as (k6 & vs1 & fn1 & -> & Hargs & Hf & Hrec).
    rewrite Hfind in Hf. injection Hf as <-. injection Hr1 as ->.
    destruct (IH k6 ltac:(lia) vs1 [v] Hrec) as [Hvs1 Hloop].
    destruct (frame_step vs vs1 Hvs (evalExprs_eventually prog k6 _ _ _ Hargs))
      as (_ & Hstage & Hleave).
    apply execStmts_For_turn
      with (inner := tmpFrame names vs1 ++ paramFrame names vs1).
    + apply (evalExpr_eventually prog (S (S (S k6)))).
      unfold cond in *. rewrite loopCond_negates by exact Hop.
      now rewrite Hcond.
    + exact Hstage.
    + rewrite Hleave. exact Hloop.
Qed.

(** The loop ends in the frame of some call, and what the base Return
    gives there is what the first call returns. *)
Lemma loop_to_call :
  forall fuel vs r0,
    length vs = length (Params fn) ->
    execStmt prog fuel (paramFrame names vs) loop = Some r0 ->
    exists vsEnd,
      r0 = Next (paramFrame names vsEnd) /\
      forall rs,
        eventually (fun k => execStmt prog k (paramFrame names vsEnd)
                               (ReturnStmt [r]))
                   (Ret rs) ->
        eventually (fun k => callFunc prog k fn vs) rs.
Proof.
  induction fuel as [fuel IH] using lt_wf_ind. intros vs r0 Hvs Hrun.
  apply execStmt_For_inv in Hrun. destruct Hrun as (k & b & -> & Hcond & Hb).
  unfold cond in *. rewrite loopCond_negates in Hcond by exact Hop.
  destruct (evalExpr prog k (paramFrame names vs) (BinaryExpr X op Y))
    as [[z|b0]|] eqn:Hc;
    try discriminate.
  simpl in Hcond. injection Hcond as <-.
  destruct b0; simpl in Hb.
  - subst r0. exists vs. split; [reflexivity|]. intros rs Hret.
    apply (callFunc_eventually prog fn _ vs rs (paramFrame names vs) Hbody
             (bind_frame vs Hvs)).
    apply execStmts_cons_Ret.
    change (Ret rs) with (leave (paramFrame names vs) (Ret rs)).
    apply execStmt_guard_true.
    + now apply (evalExpr_eventually prog k).
    + now apply execStmts_cons_Ret.
  - destruct Hb as (r' & Hstaged & Hnext).
    destruct (staged_inv prog (Params fn) args _ _ _
                ltac:(fold names; rewrite names_length; lia) Hfresh Hstaged)
      as [vs1 Hargs].
    destruct (frame_step vs vs1 Hvs Hargs) as (Hvs1 & Hstage & Hleave).
    assert (Hr' : r' = Next (tmpFrame names vs1 ++ paramFrame names vs1)).
    { destruct Hstage as [f Hf].
      exact (execStmts_agrees prog f k _ _ _ _ (Hf f (le_n _)) Hstaged). }
    subst r'. simpl in Hnext. rewrite Hleave in Hnext.
    destruct (IH k ltac:(lia) vs1 r0 Hvs1 Hnext) as (vsEnd & -> & Hend).
    exists vsEnd. split; [reflexivity|]. intros rs Hret.
    pose proof (Hend rs Hret) as Hrec.
    assert (Hone : exists v, rs = [v]).
    { destruct Hret as [f Hf]. specialize (Hf f (le_n _)).
      apply execStmt_return_inv in Hf. destruct Hf as (k' & ws & _ & Hws & Heq).
      injection Heq as ->. apply evalExprs_single_inv in Hws.
      destruct Hws as (k'' & v & _ & _ & ->). now exists v. }
    destruct Hone as [v ->].
    apply (callFunc_eventually prog fn _ vs [v] (paramFrame names vs) Hbody
             (bind_frame vs Hvs)).
    apply execStmts_cons_Next with (env' := paramFrame names vs).
    + apply execStmt_guard_false. now apply (evalExpr_eventually prog k).
    + apply execStmts_cons_Ret.
      now apply execStmt_return_call with (fn := fn) (vs := vs1).
Qed.
End TailCall.

(** The loop of main on a guard followed by the tail call. *)
Lemma rewriteFunc_tail_call (fn fn' : FuncDecl) (cond r : Expr)
    (thenRest : list Stmt) (args : list Expr) :
  Body fn = Some [ guard cond (ReturnStmt [r] :: thenRest);
                   returnCall (Name fn) args ] ->
  rewriteFunc fn = Ok fn' ->
  fn' = {| Name := Name fn; Params := Params fn;
           Body := Some [ ForStmt None (Some (loopCond cond)) None
                            (staged (Params fn) args);
                          ReturnStmt [r] ] |}.
Proof.
  intros Hbody. unfold rewriteFunc, rewriteBody. rewrite Hbody.
  rewrite findTailRecursionReturn_spec.
  destruct (forallb parsed _); [|discriminate].
  cbn [flat_map]. rewrite lastFound_app.
  unfold returnCall at 1. cbn [selfCallReturns selfCallReturn].
  rewrite String.eqb_refl. cbn [app lastFound fold_left foundOf].
  unfold guard, returnCall. simpl.
  rewrite String.eqb_refl. simpl.
  destruct (makeAssignStmts (Params fn) args) as [stmts|] eqn:Hstage;
    simpl; [|discriminate].
  apply makeAssignStmts_Ok in Hstage. subst stmts. rewrite app_nil_r.
  intros H. now injection H as <-.
Qed.

(** X16.  The rewrite keeps what a function returns.  Let the body of
    [fn] be a guard [if X op Y { return r; ... }] with [op] one of [==]
    and [!=], without init statement and else branch, followed by
    [return fn(args)] and nothing else; let every parameter field have
    one name, the names be distinct, none of them the temporary of
    another, no argument mention a temporary, the call have as many
    arguments as [fn] has parameters, and the name of [fn] denote [fn] in
    the program.  Then the function the loop of main returns for [fn]
    gives, on every argument list, the results that [fn] gives, and it
    gives results only when [fn] does; calls nested in the expressions
    are calls of the functions of the program. *)
Theorem rewriteFunc_preserves_results (prog : list FuncDecl) (fn fn' : FuncDecl)
    (X Y r : Expr) (op : token.Token) (thenRest : list Stmt) (args : list Expr) :
  Body fn = Some [ guard (BinaryExpr X op Y) (ReturnStmt [r] :: thenRest);
                   returnCall (Name fn) args ] ->
  op = token.EQL \/ op = token.NEQ ->
  Forall (fun p => length (Names p) = 1) (Params fn) ->
  NoDup (firstNames (Params fn)) ->
  (forall n m, In n (firstNames (Params fn)) -> In m (firstNames (Params fn)) ->
               tmpName n <> m) ->
  (forall n a, In n (firstNames (Params fn)) -> In a args ->
               ~ In (tmpName n) (identsExpr a)) ->
  length args = length (Params fn) ->
  findFunc (Name fn) prog = Some fn ->
  rewriteFunc fn = Ok fn' ->
  forall vs rs,
    eventually (fun fuel => callFunc prog fuel fn vs) rs <->
    eventually (fun fuel => callFunc prog fuel fn' vs) rs.
Proof.
  intros Hbody Hop Hsingle Hnd Hclash Hfresh Hlen Hfind Hrw vs rs.
  rewrite (rewriteFunc_tail_call fn fn' _ r thenRest args Hbody Hrw).
  split; intros [f H]; specialize (H f (le_n _)).
  - destruct (call_to_loop prog fn X Y r op thenRest args
                Hbody Hop Hsingle Hnd Hclash Hfresh Hlen Hfind f vs rs H)
      as [Hvs Hloop].
    eapply callFunc_eventually; [reflexivity | | exact Hloop].
    simpl. apply (bind_frame fn); assumption.
  - apply callFunc_inv in H.
    destruct H as (k & body & env & -> & Hb & Hbind & Hrun).
    simpl in Hb, Hbind. injection Hb as <-.
    rewrite (bindParams_single _ Hsingle) in Hbind.
    destruct (Nat.eqb_spec (length vs) (length (Params fn))) as [Hvs|];
      [|discriminate].
    injection Hbind as <-. rewrite app_nil_r in Hrun.
    apply execStmts_cons_inv in Hrun.
    destruct Hrun as (k1 & r0 & -> & Hfor & Hrest).
    destruct (loop_to_call prog fn X Y r op thenRest args
                Hbody Hop Hsingle Hnd Hclash Hfresh Hlen Hfind k1 vs r0 Hvs Hfor)
      as (vsEnd & -> & Hend).
    apply Hend.
    apply execStmts_cons_inv in Hrest.
    destruct Hrest as (k2 & r1 & -> & Hret & Hr1).
    pose proof Hret as Hret'. apply execStmt_return_inv in Hret'.
    destruct Hret' as (k3 & ws & _ & _ & ->). injection Hr1 as ->.
    now apply (execStmt_eventually prog k2).
Qed.

Lemma rewriteFunc_preserves_results_witness :
  eventually (fun fuel => callFunc [Sum (Ident "int") (Ident "int")] fuel
                            (Sum (Ident "int") (Ident "int"))
                            [VInt 3; VInt 0]) [VInt 6] <->
  eventually (fun fuel => callFunc [Sum (Ident "int") (Ident "int")] fuel
                            (SumLoop (Ident "int") (Ident "int"))
                            [VInt 3; VInt 0]) [VInt 6].
Proof.
  apply (rewriteFunc_preserves_results
           [Sum (Ident "int") (Ident "int")]
           (Sum (Ident "int") (Ident "int"))
           (SumLoop (Ident "int") (Ident "int"))
           (Ident "n") (BasicLit 0) (Ident "acc") token.EQL []
           [minus1 "n"; BinaryExpr (Ident "acc") token.ADD (Ident "n")]).
  - reflexivity.
  - now left.
  - repeat constructor.
  - repeat constructor; simpl; intuition discriminate.
  - simpl. intros n m [<-|[<-|[]]] [<-|[<-|[]]]; discriminate.
  - simpl. intros n a [<-|[<-|[]]] [<-|[<-|[]]]; simpl; intuition discriminate.
  - reflexivity.
  - reflexivity.
  - reflexivity.
Defined.

(** X17.  A guard that compares by an operator other than [==] and [!=]
    becomes the loop condition as it is.  Let the body of [fn] be such a
    guard [if X op Y { return r; ... }] followed by [return fn(args)].
    On arguments for which the guard is false, where [fn] goes on to its
    recursive call, the function the loop of main returns for [fn] makes
    no turn of its loop and returns the value [r] has in the frame of
    the call. *)
Theorem rewriteFunc_other_guard (prog : list FuncDecl) (fn fn' : FuncDecl)
    (X Y r : Expr) (op : token.Token) (thenRest : list Stmt) (args : list Expr)
    (vs : list Value) (env : Env) (v : Value) :
  Body fn = Some [ guard (BinaryExpr X op Y) (ReturnStmt [r] :: thenRest);
                   returnCall (Name fn) args ] ->
  op <> token.EQL -> op <> token.NEQ ->
  rewriteFunc fn = Ok fn' ->
  bindParams (Params fn) vs [] = Some env ->
  eventually (fun fuel => evalExpr prog fuel env (BinaryExpr X op Y)) (VBool false) ->
  eventually (fun fuel => evalExpr prog fuel env r) v ->
  eventually (fun fuel => callFunc prog fuel fn' vs) [v].
Proof.
  intros Hbody Heq Hne Hrw Hbind Hguard Hr.
  rewrite (rewriteFunc_tail_call fn fn' _ r thenRest args Hbody Hrw).
  eapply callFunc_eventually; [reflexivity | exact Hbind |].
  assert (Hcond : loopCond (BinaryExpr X op Y) = BinaryExpr X op Y)
    by (destruct op; try reflexivity; congruence).
  rewrite Hcond.
  apply execStmts_cons_Next with (env' := env).
  - now apply execStmt_For_false.
  - apply execStmts_cons_Ret. destruct Hr as [f Hf]. exists (3 + f).
    intros fuel Hle. destruct fuel as [|[|[|fuel]]]; try lia.
    cbn [execStmt evalExprs]. now rewrite Hf by lia.
Qed.

Lemma rewriteFunc_other_guard_witness :
  rewriteFunc SumBelow =
    Ok {| Name := "Sum";
          Params := Params SumBelow;
          Body := Some [ ForStmt None
                           (Some (BinaryExpr (Ident "n") token.LSS (BasicLit 1)))
                           None SumStaging;
                         ReturnStmt [Ident "acc"] ] |} /\
  eventually
    (fun fuel => callFunc [SumBelow] fuel
                   {| Name := "Sum";
                      Params := Params SumBelow;
                      Body := Some [ ForStmt None
                                       (Some (BinaryExpr (Ident "n") token.LSS
                                                (BasicLit 1)))
                                       None SumStaging;
                                     ReturnStmt [Ident "acc"] ] |}
                   [VInt 3; VInt 0])
    [VInt 0].
Proof.
  split; [reflexivity|].
  apply (rewriteFunc_other_guard [SumBelow] SumBelow _
           (Ident "n") (BasicLit 1) (Ident "acc") token.LSS []
           [minus1 "n"; BinaryExpr (Ident "acc") token.ADD (Ident "n")]
           [VInt 3; VInt 0] (sumFrame 3 0) (VInt 0)).
  - reflexivity.
  - discriminate.
  - discriminate.
  - reflexivity.
  - reflexivity.
  - exists 2. intros fuel Hle. destruct fuel as [|[|fuel]]; try lia. reflexivity.
  - exists 1. intros fuel Hle. destruct fuel as [|fuel]; try lia. reflexivity.
Defined.
